(** * Tic-Tac-Toe: rule engine, opponent policy and game controller

    A shallow embedding of [src/components/TicTacToe.js] (the component with
    named opponents) and of the earlier heuristic-only component, together
    with the properties their specification states about them.

    Conventions of the embedding:
    - a cell is the JS string [''], ['X'] or ['O']; the two player symbols
      form the type [player], a cell is [Empty] or [Mark p];
    - a board is the JS array of cells, a [list cell]; [boardState[i]] is the
      list lookup [boardState !! i], whose [None] is JS [undefined];
    - [[...boardState]] followed by [newBoard[i] = p] is the list update
      [<[i:=Mark p]> boardState]; every index the code writes comes from
      [getEmptyCells], so it is in range;
    - numbers are integers ([Z], [nat] for indices and scores), extended with
      the two infinities where the search uses them; [Math.random()] is a
      rational drawn from an explicit random source. *)

From Stdlib Require Import ZArith QArith Qround Lia.
From stdpp Require Import base decidable option list sorting strings.

Open Scope nat_scope.

(** ** Data model *)

Inductive player := X | O.
Inductive cell := Empty | Mark (p : player).

Global Instance player_eq_dec : EqDecision player.
Proof. solve_decision. Defined.
Global Instance cell_eq_dec : EqDecision cell.
Proof. solve_decision. Defined.

Abbreviation Board := (list cell).

(** [Array(9).fill('')] *)
Definition emptyBoard : Board := replicate 9 Empty.

(** [player === 'X' ? 'O' : 'X'] *)
Definition other (p : player) : player :=
  match p with X => O | O => X end.

(** ** Rule engine *)

Definition winCombos : list (list nat) :=
  [ [0; 1; 2]; [3; 4; 5]; [6; 7; 8];   (* rows *)
    [0; 3; 6]; [1; 4; 7]; [2; 5; 8];   (* columns *)
    [0; 4; 8]; [2; 4; 6] ].            (* diagonals *)

(** The test of the loop body of [checkWinner]:
    [boardState[a] === player && boardState[b] === player &&
     boardState[c] === player] after [const [a, b, c] = combo]. *)
Definition line (boardState : Board) (p : player) (combo : list nat) : Prop :=
  match combo with
  | [a; b; c] =>
      boardState !! a = Some (Mark p) ∧
      boardState !! b = Some (Mark p) ∧
      boardState !! c = Some (Mark p)
  | _ => False
  end.

Global Instance line_dec boardState p combo : Decision (line boardState p combo).
Proof.
  unfold line.
  destruct combo as [|a [|b [|c [|? ?]]]]; apply _.
Defined.

(** [for (let combo of winCombos) { if (...) return combo; } return null;]
    The loop returns the first element of [winCombos] that passes the test. *)
Definition checkWinner (boardState : Board) (p : player) : option (list nat) :=
  snd <$> list_find (line boardState p) winCombos.

(** [boardState.map((cell, index) => cell === '' ? index : null)
              .filter(val => val !== null)] *)
Definition getEmptyCells (boardState : Board) : list nat :=
  omap id (imap (λ index c, if decide (c = Empty) then Some index else None)
                boardState).

(** [getEmptyCells] with the index [index] reported as [f index]; the tail
    of a board is the board itself seen through [f ∘ S]. *)
Definition emptyCellsVia (f : nat → nat) (boardState : Board) : list nat :=
  omap id (imap (λ index c, if decide (c = Empty) then Some (f index) else None)
                boardState).

(** ** Numbers of the search

    The search computes with integers and with [-Infinity] / [Infinity]. *)

Inductive num := NegInf | Fin (z : Z) | PosInf.

(** [a <= b] *)
Definition num_leb (a b : num) : bool :=
  match a, b with
  | NegInf, _ => true
  | _, PosInf => true
  | Fin x, Fin y => (x <=? y)%Z
  | _, _ => false
  end.

(** [a > b] *)
Definition num_gtb (a b : num) : bool := negb (num_leb a b).

(** [Math.max(a, b)] and [Math.min(a, b)] *)
Definition num_max (a b : num) : num := if num_leb a b then b else a.
Definition num_min (a b : num) : num := if num_leb a b then a else b.

(** [v] cut to the window from [alpha] to [beta] *)
Definition clamp (alpha beta v : num) : num := num_max alpha (num_min beta v).

(** [v] is an integer between [lo] and [hi] *)
Definition within (lo hi : Z) (v : num) : Prop :=
  ∃ z, v = Fin z ∧ (lo ≤ z ≤ hi)%Z.

(** ** Minimax with alpha-beta pruning

    The two [for] loops of [minimax]; [rec newBoard alpha beta] stands for the
    recursive call [minimax(newBoard, depth + 1, ..., alpha, beta)]. *)

Section Loops.
Variable rec : Board → num → num → option num.
Variable boardState : Board.

Fixpoint maxLoop (cells : list nat) (maxEval alpha beta : num) : option num :=
  match cells with
  | [] => Some maxEval
  | cellIndex :: rest =>
      match rec (<[cellIndex := Mark O]> boardState) alpha beta with
      | None => None
      | Some evaluation =>
          let maxEval := num_max maxEval evaluation in
          let alpha := num_max alpha evaluation in
          if num_leb beta alpha then Some maxEval
          else maxLoop rest maxEval alpha beta
      end
  end.

Fixpoint minLoop (cells : list nat) (minEval alpha beta : num) : option num :=
  match cells with
  | [] => Some minEval
  | cellIndex :: rest =>
      match rec (<[cellIndex := Mark X]> boardState) alpha beta with
      | None => None
      | Some evaluation =>
          let minEval := num_min minEval evaluation in
          let beta := num_min beta evaluation in
          if num_leb beta alpha then Some minEval
          else minLoop rest minEval alpha beta
      end
  end.
End Loops.

(** [minimax(boardState, depth, isMaximizing, alpha, beta)].  The recursion of
    the source is bounded here by [fuel], the number of nested calls allowed;
    [None] means the bound was hit before the call returned. *)
Fixpoint minimax (fuel : nat) (boardState : Board) (depth : Z)
    (isMaximizing : bool) (alpha beta : num) : option num :=
  match fuel with
  | 0 => None
  | S fuel =>
      let winner :=
        if checkWinner boardState O is Some _ then Some O
        else if checkWinner boardState X is Some _ then Some X else None in
      if decide (winner = Some O) then Some (Fin (10 - depth))
      else if decide (winner = Some X) then Some (Fin (depth - 10))
      else if decide (length (getEmptyCells boardState) = 0) then Some (Fin 0)
      else if decide (depth > 6)%Z then Some (Fin 0)
      else
        let emptyCells := getEmptyCells boardState in
        if isMaximizing then
          maxLoop (λ newBoard, minimax fuel newBoard (depth + 1) false)
                  boardState emptyCells NegInf alpha beta
        else
          minLoop (λ newBoard, minimax fuel newBoard (depth + 1) true)
                  boardState emptyCells PosInf alpha beta
  end.

(** Every nested call fills one empty cell, so one more call than there are
    empty cells is always enough. *)
Definition searchFuel (boardState : Board) : nat :=
  S (length (getEmptyCells boardState)).

(** The value the call [minimax(boardState, depth, isMaximizing, alpha, beta)]
    returns. *)
Definition minimaxValue (boardState : Board) (depth : Z) (isMaximizing : bool)
    (alpha beta : num) : num :=
  default (Fin 0)
    (minimax (searchFuel boardState) boardState depth isMaximizing alpha beta).

(** *** Plain minimax, the reference for the pruned search

    The same depth-weighted evaluation with every branch visited: no window
    and no [break].  A maximizing ply takes the largest value of its
    children, a minimizing ply the smallest. *)

Section PlainLoop.
Variable rec : Board → option num.
Variable boardState : Board.
Variable isMaximizing : bool.

Fixpoint plainLoop (cells : list nat) (best : num) : option num :=
  match cells with
  | [] => Some best
  | cellIndex :: rest =>
      match rec (<[cellIndex := Mark (if isMaximizing then O else X)]> boardState) with
      | None => None
      | Some v =>
          plainLoop rest (if isMaximizing then num_max best v else num_min best v)
      end
  end.
End PlainLoop.

Fixpoint plainMinimax (fuel : nat) (boardState : Board) (depth : Z)
    (isMaximizing : bool) : option num :=
  match fuel with
  | 0 => None
  | S fuel =>
      if checkWinner boardState O is Some _ then Some (Fin (10 - depth))
      else if checkWinner boardState X is Some _ then Some (Fin (depth - 10))
      else if decide (getEmptyCells boardState = []) then Some (Fin 0)
      else if decide (depth > 6)%Z then Some (Fin 0)
      else
        plainLoop (λ newBoard, plainMinimax fuel newBoard (depth + 1) (negb isMaximizing))
                  boardState isMaximizing (getEmptyCells boardState)
                  (if isMaximizing then NegInf else PosInf)
  end.

Definition plainMinimaxValue (boardState : Board) (depth : Z)
    (isMaximizing : bool) : num :=
  default (Fin 0)
    (plainMinimax (searchFuel boardState) boardState depth isMaximizing).

(** ** Random source and completions

    [Math.random()] reads the next draw of an explicit source.  A call either
    returns a value or throws; the state of the source survives both. *)

Record rng := { draws : nat → Q; cursor : nat }.

Inductive completion (A : Type) : Type :=
| Normal (v : A)
| Thrown (e : string).
Arguments Normal {A} v.
Arguments Thrown {A} e.

Definition M (A : Type) : Type := rng → completion A * rng.

Global Instance M_ret : MRet M := λ A v g, (Normal v, g).
Global Instance M_bind : MBind M := λ A B k m g,
  match m g with
  | (Normal v, g') => k v g'
  | (Thrown e, g') => (Thrown e, g')
  end.

(** The next draw of a source, and the source after it. *)
Definition peek (g : rng) : Q := draws g (cursor g).
Definition next (g : rng) : rng := {| draws := draws g; cursor := S (cursor g) |}.

(** [Math.random()] *)
Definition random : M Q := λ g, (Normal (peek g), next g).

(** [Math.random()] returns a number from 0 up to, not including, 1. *)
Definition validSource (g : rng) : Prop := ∀ n, (0 <= draws g n)%Q ∧ (draws g n < 1)%Q.

(** [Math.floor(Math.random() * n)] *)
Definition randomBelow (n : nat) : M Z :=
  r ← random; mret (Qfloor (r * inject_Z (Z.of_nat n))).

(** The value a move selection returns: [null], [undefined] (an array read
    out of range) or a cell index. *)
Inductive move := Null | Undefined | Index (i : nat).

(** [cells[k]] for a computed index [k] *)
Definition pick (cells : list nat) (k : Z) : move :=
  if decide (0 ≤ k)%Z then
    match cells !! Z.to_nat k with
    | Some i => Index i
    | None => Undefined
    end
  else Undefined.

(** [cells[Math.floor(Math.random() * cells.length)]] *)
Definition randomElement (cells : list nat) : M move :=
  k ← randomBelow (length cells); mret (pick cells k).

(** ** Opponent policy *)

Record profile := {
  name : string;
  difficulty : string;
  description : string;
  thinkingTime : Z * Z;
  errorRate : Q
}.

Inductive opponentId := alex | maya | victor.

Definition opponents (id : opponentId) : profile :=
  match id with
  | alex => {| name := "Alex"; difficulty := "easy";
               description := "Friendly and makes occasional mistakes";
               thinkingTime := (800, 1500)%Z; errorRate := 3 # 10 |}
  | maya => {| name := "Maya"; difficulty := "medium";
               description := "Balanced player with good strategy";
               thinkingTime := (1000, 2000)%Z; errorRate := 15 # 100 |}
  | victor => {| name := "Victor"; difficulty := "expert";
                 description := "Master strategist, nearly unbeatable";
                 thinkingTime := (1500, 3000)%Z; errorRate := 5 # 100 |}
  end.

(** [newBoard[cellIndex] = p; checkWinner(newBoard, p)] is truthy *)
Definition winsAt (boardState : Board) (p : player) (cellIndex : nat) : Prop :=
  is_Some (checkWinner (<[cellIndex := Mark p]> boardState) p).

Global Instance winsAt_dec boardState p cellIndex :
  Decision (winsAt boardState p cellIndex).
Proof. unfold winsAt. apply _. Defined.

(** [for (let cellIndex of emptyCells) { ...; if (checkWinner(newBoard, p))
    return cellIndex; }]: the first cell of the list that passes the test. *)
Definition firstWinning (boardState : Board) (p : player) (cells : list nat)
  : option nat :=
  snd <$> list_find (winsAt boardState p) cells.

Definition corners : list nat := [0; 2; 6; 8].

(** Some empty cell wins for [p] when [p] is placed there. *)
Definition canWin (boardState : Board) (p : player) : Prop :=
  ∃ c, c ∈ getEmptyCells boardState ∧ winsAt boardState p c.

(** [getStrategicMove(boardState)] *)
Definition getStrategicMove (boardState : Board) : M move :=
  let emptyCells := getEmptyCells boardState in
  (* Check for winning moves *)
  if firstWinning boardState O emptyCells is Some cellIndex then mret (Index cellIndex)
  (* Check for blocking moves *)
  else if firstWinning boardState X emptyCells is Some cellIndex then mret (Index cellIndex)
  (* Prefer center *)
  else if decide (boardState !! 4 = Some Empty) then mret (Index 4)
  else
    (* Prefer corners *)
    let availableCorners := filter (λ i, boardState !! i = Some Empty) corners in
    if decide (0 < length availableCorners) then
      randomElement availableCorners
    else
      (* Random move *)
      randomElement emptyCells.

(** [minimax(newBoard, 0, false)] for the board with ['O'] at [cellIndex]:
    the value the expert branch gives to the move *)
Definition valueOfMove (boardState : Board) (cellIndex : nat) : num :=
  minimaxValue (<[cellIndex := Mark O]> boardState) 0 false NegInf PosInf.

(** The loop of the expert branch of [getBestMove]: [bestMove] starts at [-1]
    and [bestValue] at [-Infinity]. *)
Fixpoint bestLoop (boardState : Board) (cells : list nat)
    (bestMove : Z) (bestValue : num) : Z * num :=
  match cells with
  | [] => (bestMove, bestValue)
  | cellIndex :: rest =>
      let moveValue :=
        minimaxValue (<[cellIndex := Mark O]> boardState) 0 false NegInf PosInf in
      if num_gtb moveValue bestValue
      then bestLoop boardState rest (Z.of_nat cellIndex) moveValue
      else bestLoop boardState rest bestMove bestValue
  end.

(** The body of [getBestMove(boardState)] once [opponent] has been read from
    [opponents[selectedOpponent]]. *)
Definition getBestMoveFor (opponent : profile) (boardState : Board) : M move :=
  let emptyCells := getEmptyCells boardState in
  if decide (length emptyCells = 0) then mret Null
  else
    (* Introduce errors based on difficulty *)
    r ← random;
    if Qlt_le_dec r (errorRate opponent) then
      randomElement emptyCells
    else if decide (difficulty opponent = "easy") then
      (* Mix of random and strategic moves *)
      r' ← random;
      if Qlt_le_dec r' (6 # 10) then getStrategicMove boardState
      else randomElement emptyCells
    else if decide (difficulty opponent = "medium") then
      getStrategicMove boardState
    else if decide (difficulty opponent = "expert") then
      (* Use full minimax *)
      let '(bestMove, _) := bestLoop boardState emptyCells (-1) NegInf in
      mret (if decide (bestMove ≠ -1)%Z then Index (Z.to_nat bestMove)
            else pick emptyCells 0)
    else mret (pick emptyCells 0).

Definition getBestMove (selectedOpponent : opponentId) (boardState : Board) : M move :=
  getBestMoveFor (opponents selectedOpponent) boardState.

(** ** Game controller

    The component keeps its state in React state cells.  A function created
    during a render reads the values of that render (its [view]); the setters
    it calls update the current state ([live]).  For a handler that runs
    right after the render that created it the two coincide. *)

Inductive mode := human | computer.

Global Instance mode_eq_dec : EqDecision mode.
Proof. solve_decision. Defined.

(** [scores], the object [{ X: ..., O: ... }] *)
Record scoreBoard := { scoreX : nat; scoreO : nat }.

(** [prev[player]] *)
Definition score (sc : scoreBoard) (p : player) : nat :=
  match p with X => scoreX sc | O => scoreO sc end.

(** [{ ...prev, [player]: prev[player] + 1 }] *)
Definition addWin (p : player) (prev : scoreBoard) : scoreBoard :=
  match p with
  | X => {| scoreX := scoreX prev + 1; scoreO := scoreO prev |}
  | O => {| scoreX := scoreX prev; scoreO := scoreO prev + 1 |}
  end.

Record game := {
  board : Board;
  currentPlayer : player;
  gameFinished : bool;
  scores : scoreBoard;
  gameMode : mode;
  selectedOpponent : opponentId;
  isThinking : bool;
  winnerCells : list nat
}.

(** The state of the first render: the [useState] initial values. *)
Definition initialGame : game :=
  {| board := emptyBoard; currentPlayer := X; gameFinished := false;
     scores := {| scoreX := 0; scoreO := 0 |}; gameMode := human;
     selectedOpponent := alex; isThinking := false; winnerCells := [] |}.

Definition setBoard (v : Board) (s : game) : game :=
  {| board := v; currentPlayer := currentPlayer s; gameFinished := gameFinished s;
     scores := scores s; gameMode := gameMode s;
     selectedOpponent := selectedOpponent s; isThinking := isThinking s;
     winnerCells := winnerCells s |}.

Definition setCurrentPlayer (v : player) (s : game) : game :=
  {| board := board s; currentPlayer := v; gameFinished := gameFinished s;
     scores := scores s; gameMode := gameMode s;
     selectedOpponent := selectedOpponent s; isThinking := isThinking s;
     winnerCells := winnerCells s |}.

Definition setGameFinished (v : bool) (s : game) : game :=
  {| board := board s; currentPlayer := currentPlayer s; gameFinished := v;
     scores := scores s; gameMode := gameMode s;
     selectedOpponent := selectedOpponent s; isThinking := isThinking s;
     winnerCells := winnerCells s |}.

(** [setScores(prev => f(prev))] and [setScores(v)] *)
Definition setScores (f : scoreBoard → scoreBoard) (s : game) : game :=
  {| board := board s; currentPlayer := currentPlayer s;
     gameFinished := gameFinished s; scores := f (scores s);
     gameMode := gameMode s; selectedOpponent := selectedOpponent s;
     isThinking := isThinking s; winnerCells := winnerCells s |}.

Definition setGameMode (v : mode) (s : game) : game :=
  {| board := board s; currentPlayer := currentPlayer s;
     gameFinished := gameFinished s; scores := scores s; gameMode := v;
     selectedOpponent := selectedOpponent s; isThinking := isThinking s;
     winnerCells := winnerCells s |}.

Definition setSelectedOpponent (v : opponentId) (s : game) : game :=
  {| board := board s; currentPlayer := currentPlayer s;
     gameFinished := gameFinished s; scores := scores s; gameMode := gameMode s;
     selectedOpponent := v; isThinking := isThinking s;
     winnerCells := winnerCells s |}.

Definition setIsThinking (v : bool) (s : game) : game :=
  {| board := board s; currentPlayer := currentPlayer s;
     gameFinished := gameFinished s; scores := scores s; gameMode := gameMode s;
     selectedOpponent := selectedOpponent s; isThinking := v;
     winnerCells := winnerCells s |}.

Definition setWinnerCells (v : list nat) (s : game) : game :=
  {| board := board s; currentPlayer := currentPlayer s;
     gameFinished := gameFinished s; scores := scores s; gameMode := gameMode s;
     selectedOpponent := selectedOpponent s; isThinking := isThinking s;
     winnerCells := v |}.

(** [handleWin(player, winCombo)] (the sound is not part of the state) *)
Definition handleWin (p : player) (winCombo : list nat) (live : game) : game :=
  setScores (addWin p) (setGameFinished true (setWinnerCells winCombo live)).

(** [makeMove(cellIndex, player)], created by the render [view] *)
Definition makeMove (view : game) (cellIndex : nat) (p : player) (live : game)
  : game :=
  if decide (gameFinished view = true ∨ board view !! cellIndex ≠ Some Empty
             ∨ isThinking view = true)
  then live
  else
    let newBoard := <[cellIndex := Mark p]> (board view) in
    let live := setBoard newBoard live in
    match checkWinner newBoard p with
    | Some winCombo => handleWin p winCombo live
    | None =>
        if decide (length (getEmptyCells newBoard) = 0)
        then setGameFinished true live
        else setCurrentPlayer (other p) live
    end.

(** [handleCellClick(cellIndex)] *)
Definition handleCellClick (cellIndex : nat) (s : game) : game :=
  if decide (gameMode s = computer ∧ currentPlayer s = O) then s
  else makeMove s cellIndex (currentPlayer s) s.

(** [initGame()] *)
Definition initGame (s : game) : game :=
  setWinnerCells [] (setIsThinking false (setGameFinished false
    (setCurrentPlayer X (setBoard emptyBoard s)))).

(** [resetScore()] *)
Definition resetScore (s : game) : game :=
  setScores (λ _, {| scoreX := 0; scoreO := 0 |}) s.

(** [switchMode(mode)] *)
Definition switchMode (m : mode) (s : game) : game :=
  initGame (setGameMode m s).

(** [selectOpponent(opponentId)] *)
Definition selectOpponent (id : opponentId) (s : game) : game :=
  let s' := setSelectedOpponent id s in
  if decide (gameMode s = computer) then initGame s' else s'.

(** The winner shown by [getStatusMessage]: [board[winnerCells[0]]] of a
    finished game whose [winnerCells] is not empty. *)
Definition winner (s : game) : option player :=
  if gameFinished s then
    match winnerCells s with
    | [] => None
    | first :: _ =>
        match board s !! first with
        | Some (Mark p) => Some p
        | _ => None
        end
    end
  else None.

(** *** The opponent's turn

    [opponentMove()] marks the opponent as thinking and starts a timer; the
    callback of the timer belongs to the render that started it, so it reads
    that render's board and calls that render's [makeMove].  A started timer
    is never cleared: it stays pending across later events. *)

Record world := {
  live : game;
  pending : list game;   (* the renders whose thinking timer is running *)
  source : rng
}.

Definition initialWorld (g : rng) : world :=
  {| live := initialGame; pending := []; source := g |}.

(** The condition of the effect that schedules [opponentMove]. *)
Definition opponentDue (s : game) : Prop :=
  gameMode s = computer ∧ currentPlayer s = O ∧
  gameFinished s = false ∧ isThinking s = false.

Global Instance opponentDue_dec s : Decision (opponentDue s).
Proof. unfold opponentDue. apply _. Defined.

(** [opponentMove()] up to the start of the timer; the duration of the timer
    takes one draw. *)
Definition opponentMove (w : world) : world :=
  let s := live w in
  if decide (gameFinished s = true ∨ isThinking s = true) then w
  else
    let '(_, g) := random (source w) in
    {| live := setIsThinking true s; pending := pending w ++ [s]; source := g |}.

(** The callback of the timer started by the render [view]. *)
Definition thinkingDone (view : game) (s : game) : M game :=
  bestMoveIndex ← getBestMove (selectedOpponent view) (board view);
  let s :=
    match bestMoveIndex with
    | Null => s
    | Index i => makeMove view i O s
    | Undefined => s   (* [board[undefined] !== ''], [makeMove] returns at once *)
    end in
  mret (setIsThinking false s).

Inductive event :=
| CellClick (cellIndex : nat)   (* a click on a cell *)
| OpponentTurn                  (* the effect's timer calls [opponentMove] *)
| ThinkingDone (k : nat)        (* the [k]-th pending thinking timer fires *)
| NewGame                       (* [initGame] *)
| ResetScore                    (* [resetScore] *)
| SwitchMode (m : mode)         (* [switchMode] *)
| SelectOpponent (id : opponentId).

Definition onLive (f : game → game) (w : world) : world :=
  {| live := f (live w); pending := pending w; source := source w |}.

Definition step (e : event) (w : world) : world :=
  match e with
  | CellClick cellIndex => onLive (handleCellClick cellIndex) w
  | OpponentTurn => if decide (opponentDue (live w)) then opponentMove w else w
  | ThinkingDone k =>
      match pending w !! k with
      | None => w
      | Some view =>
          match thinkingDone view (live w) (source w) with
          | (Normal s, g) =>
              {| live := s; pending := delete k (pending w); source := g |}
          | (Thrown _, g) =>
              {| live := live w; pending := delete k (pending w); source := g |}
          end
      end
  | NewGame => onLive initGame w
  | ResetScore => onLive resetScore w
  | SwitchMode m => onLive (switchMode m) w
  | SelectOpponent id => onLive (selectOpponent id) w
  end.

Definition run (es : list event) (w : world) : world :=
  foldl (λ w e, step e w) w es.

(** The states the controller can be in. *)
Definition reachable (w : world) : Prop :=
  ∃ g es, w = run es (initialWorld g).

(** [count(X)] and [count(O)] on a board *)
Definition countOf (p : player) (boardState : Board) : nat :=
  length (filter (λ c, c = Mark p) boardState).

(** ** The earlier component: one heuristic opponent

    The first version of [TicTacToe.js] has the same rule engine
    ([checkWinner], [getEmptyCells], [winCombos] are the same text), no
    opponent profiles and no search; its [getBestMove] is the heuristic that
    the later version calls [getStrategicMove]. *)

Module Basic.

(** [simulateMove(boardState, cellIndex, player)] *)
Definition simulateMove (boardState : Board) (cellIndex : nat) (p : player)
  : option (list nat) :=
  let newBoard := <[cellIndex := Mark p]> boardState in
  checkWinner newBoard p.

(** [for (let cellIndex of emptyCells) { if (simulateMove(boardState,
    cellIndex, p)) return cellIndex; }] *)
Definition firstSimulated (boardState : Board) (p : player) (cells : list nat)
  : option nat :=
  snd <$> list_find (λ cellIndex, is_Some (simulateMove boardState cellIndex p)) cells.

(** [getBestMove(boardState)] *)
Definition getBestMove (boardState : Board) : M move :=
  let emptyCells := getEmptyCells boardState in
  if decide (length emptyCells = 0) then mret Null
  (* 1. Check if AI can win *)
  else if firstSimulated boardState O emptyCells is Some cellIndex
  then mret (Index cellIndex)
  (* 2. Check if AI needs to block player *)
  else if firstSimulated boardState X emptyCells is Some cellIndex
  then mret (Index cellIndex)
  (* 3. Strategic positions (center, corners, edges) *)
  else if decide (boardState !! 4 = Some Empty) then mret (Index 4)
  else
    let availableCorners := filter (λ index, boardState !! index = Some Empty) corners in
    if decide (0 < length availableCorners) then
      randomElement availableCorners
    else
      (* 4. Random empty cell *)
      randomElement emptyCells.

Inductive mode := human | ai.

Record game := {
  board : Board;
  currentPlayer : player;
  gameFinished : bool;
  scores : scoreBoard;
  gameMode : mode;
  aiThinking : bool;
  winnerCells : list nat
}.

(** [handleWin(player, winCombo)]:
    [setWinnerCells(winCombo); setGameFinished(true); setScores(...)] *)
Definition handleWin (p : player) (winCombo : list nat) (live : game) : game :=
  {| board := board live; currentPlayer := currentPlayer live;
     gameFinished := true; scores := addWin p (scores live);
     gameMode := gameMode live; aiThinking := aiThinking live;
     winnerCells := winCombo |}.

(** [handleDraw()]: [setGameFinished(true)] *)
Definition handleDraw (live : game) : game :=
  {| board := board live; currentPlayer := currentPlayer live;
     gameFinished := true; scores := scores live;
     gameMode := gameMode live; aiThinking := aiThinking live;
     winnerCells := winnerCells live |}.

(** The state of the first render: the [useState] initial values. *)
Definition initialGame : game :=
  {| board := emptyBoard; currentPlayer := X; gameFinished := false;
     scores := {| scoreX := 0; scoreO := 0 |}; gameMode := human;
     aiThinking := false; winnerCells := [] |}.

Definition setBoard (v : Board) (live : game) : game :=
  {| board := v; currentPlayer := currentPlayer live;
     gameFinished := gameFinished live; scores := scores live;
     gameMode := gameMode live; aiThinking := aiThinking live;
     winnerCells := winnerCells live |}.

Definition setCurrentPlayer (v : player) (live : game) : game :=
  {| board := board live; currentPlayer := v;
     gameFinished := gameFinished live; scores := scores live;
     gameMode := gameMode live; aiThinking := aiThinking live;
     winnerCells := winnerCells live |}.

(** [makeMove(cellIndex, player)], created by the render [view] *)
Definition makeMove (view : game) (cellIndex : nat) (p : player) (live : game)
  : game :=
  if decide (gameFinished view = true ∨ board view !! cellIndex ≠ Some Empty
             ∨ aiThinking view = true)
  then live
  else
    let newBoard := <[cellIndex := Mark p]> (board view) in
    let live := setBoard newBoard live in
    match checkWinner newBoard p with
    | Some winCombo => handleWin p winCombo live
    | None =>
        if decide (length (getEmptyCells newBoard) = 0)
        then handleDraw live
        else setCurrentPlayer (other p) live
    end.

End Basic.


(** ** Invariants of the controller *)

(** [count(X) - count(O)] is 0 or 1 *)
Definition balancedBoard (boardState : Board) : Prop :=
  (Z.of_nat (countOf X boardState) - Z.of_nat (countOf O boardState) = 0)%Z ∨
  (Z.of_nat (countOf X boardState) - Z.of_nat (countOf O boardState) = 1)%Z.

(** The counts of a board on which it is the turn of [p]: X moves first. *)
Definition dueOn (boardState : Board) (p : player) : Prop :=
  match p with
  | X => countOf X boardState = countOf O boardState
  | O => countOf X boardState = countOf O boardState + 1
  end.

(** While a game is running the counts agree with the current player. *)
Definition inTurn (s : game) : Prop :=
  balancedBoard (board s) ∧
  (gameFinished s = false → dueOn (board s) (currentPlayer s)).

(** A render that started a thinking timer was waiting for ['O']. *)
Definition awaitsO (view : game) : Prop := dueOn (board view) O.

Definition consistent (w : world) : Prop :=
  inTurn (live w) ∧ Forall awaitsO (pending w).

(** ** Sample inputs *)

(** A source whose every draw is one half. *)
Definition halves : rng := {| draws := λ _, 1 # 2; cursor := 0 |}.

(** An expert whose error rate is forced to 0. *)
Definition sureExpert : profile :=
  {| name := "Victor"; difficulty := "expert";
     description := "Master strategist, nearly unbeatable";
     thinkingTime := (1500, 3000)%Z; errorRate := 0 |}.

(** [X X _ / O O _ / _ _ _] *)
Definition sampleBoard : Board :=
  [Mark X; Mark X; Empty; Mark O; Mark O; Empty; Empty; Empty; Empty].

(** [_ _ _ / _ X _ / _ _ _] *)
Definition centerTaken : Board :=
  [Empty; Empty; Empty; Empty; Mark X; Empty; Empty; Empty; Empty].

(** A full board without a line. *)
Definition fullBoard : Board :=
  [Mark X; Mark O; Mark X; Mark X; Mark O; Mark O; Mark O; Mark X; Mark X].


(** ** Further parts of the component *)

(** The [disabled] attribute of a cell button:
    [gameFinished || (gameMode === 'computer' && currentPlayer === 'O')
     || isThinking] *)
Definition cellDisabled (s : game) : bool :=
  gameFinished s
  || (bool_decide (gameMode s = computer) && bool_decide (currentPlayer s = O))
  || isThinking s.

(** [minTime + Math.random() * (maxTime - minTime)], the duration of the
    thinking timer of [opponentMove] for the draw [r], in exact arithmetic;
    the code rounds the product and the sum to floating point, which keeps
    the result between [minTime] and [maxTime] but can reach [maxTime] *)
Definition thinkingDuration (opponent : profile) (r : Q) : Q :=
  let '(minTime, maxTime) := thinkingTime opponent in
  inject_Z minTime + r * (inject_Z maxTime - inject_Z minTime).

(** [getStatusMessage()] *)
Definition getStatusMessage (s : game) : string :=
  let opponent := opponents (selectedOpponent s) in
  if gameFinished s then
    match winnerCells s with
    | first :: _ =>
        let winner := board s !! first in
        (if decide (winner = Some (Mark X)) then "You" else name opponent)
        +:+ " win" +:+ (if decide (winner = Some (Mark X)) then "" else "s") +:+ "!"
    | [] => "It's a draw!"
    end
  else if isThinking s then name opponent +:+ " is thinking"
  else if decide (gameMode s = computer) then
    match currentPlayer s with
    | X => "Your turn"
    | O => name opponent +:+ "'s turn"
    end
  else "Player " +:+ (match currentPlayer s with X => "X" | O => "O" end) +:+ "'s turn".

(** The value the expert branch of [getBestMove] returns. *)
Definition expertChoice (boardState : Board) : move :=
  let '(bestMove, _) := bestLoop boardState (getEmptyCells boardState) (-1) NegInf in
  if decide (bestMove ≠ -1)%Z then Index (Z.to_nat bestMove)
  else pick (getEmptyCells boardState) 0.

(** *** Undisturbed play

    A new game, a change of mode or a change of opponent made while a
    thinking timer is running leaves that timer behind.  Play is
    undisturbed when those three happen only while no timer is pending. *)

Definition calm (e : event) (w : world) : Prop :=
  match e with
  | NewGame | SwitchMode _ | SelectOpponent _ => pending w = []
  | _ => True
  end.

Inductive undisturbed : world → Prop :=
| undisturbed_start g : undisturbed (initialWorld g)
| undisturbed_step e w : undisturbed w → calm e w → undisturbed (step e w).

(** Nobody has a line on the board. *)
Definition noLine (boardState : Board) : Prop :=
  checkWinner boardState X = None ∧ checkWinner boardState O = None.

(** The finished flag, the winning cells and the board of a state agree. *)
Definition decided (s : game) : Prop :=
  (gameFinished s = false →
     winnerCells s = [] ∧ noLine (board s) ∧ getEmptyCells (board s) ≠ []) ∧
  (gameFinished s = true →
     (∃ p, checkWinner (board s) p = Some (winnerCells s) ∧
           checkWinner (board s) (other p) = None) ∨
     (winnerCells s = [] ∧ noLine (board s) ∧ getEmptyCells (board s) = [])).

(** At most one timer is pending, and the state has not moved since it was
    started. *)
Definition settledTimers (w : world) : Prop :=
  pending w = [] ∨
  ∃ view, pending w = [view] ∧ board view = board (live w) ∧
          gameFinished view = false ∧ isThinking view = false ∧
          gameFinished (live w) = false ∧ isThinking (live w) = true.

(** *** A game against the expert

    One round of a game against the computer: a click by X, then the
    opponent's turn and the end of its thinking. *)
Definition round (x : nat) : list event :=
  [CellClick x; OpponentTurn; ThinkingDone 0].

(** No draw of the source is below Victor's error rate: the error injection
    never fires. *)
Definition quiet (g : rng) : Prop := ∀ n, (5 # 100 <= draws g n)%Q.

(** [unbeaten n boardState]: X to move on [boardState]; whatever X plays,
    with O answering by [expertChoice], X completes no line within [n]
    rounds and the game is over by then. *)
Fixpoint unbeaten (n : nat) (boardState : Board) : bool :=
  match n with
  | 0 => false
  | S n =>
      forallb (λ x,
        let afterX := <[x := Mark X]> boardState in
        match checkWinner afterX X with
        | Some _ => false
        | None =>
            if decide (getEmptyCells afterX = []) then true
            else
              match expertChoice afterX with
              | Index c =>
                  bool_decide (afterX !! c = Some Empty) &&
                  (let afterO := <[c := Mark O]> afterX in
                   match checkWinner afterO O with
                   | Some _ => true
                   | None =>
                       if decide (getEmptyCells afterO = []) then true
                       else unbeaten n afterO
                   end)
              | _ => false
              end
        end) (getEmptyCells boardState)
  end.

(** The state between two rounds of a game against Victor. *)
Definition betweenRounds (w : world) : Prop :=
  gameMode (live w) = computer ∧ selectedOpponent (live w) = victor ∧
  isThinking (live w) = false ∧ pending w = [] ∧ quiet (source w) ∧
  checkWinner (board (live w)) X = None ∧
  (gameFinished (live w) = true ∨
   (gameFinished (live w) = false ∧ currentPlayer (live w) = X ∧
    ∃ n, unbeaten n (board (live w)) = true)).

(** ** The earlier component: the rest of the controller *)

Module BasicGame.

Import Basic.

Global Instance mode_eq_dec : EqDecision mode.
Proof. solve_decision. Defined.

(** [handleCellClick(cellIndex)] *)
Definition handleCellClick (cellIndex : nat) (s : game) : game :=
  if decide (gameMode s = ai ∧ currentPlayer s = O) then s
  else makeMove s cellIndex (currentPlayer s) s.

(** [initGame()] *)
Definition initGame (s : game) : game :=
  {| board := emptyBoard; currentPlayer := X; gameFinished := false;
     scores := scores s; gameMode := gameMode s; aiThinking := false;
     winnerCells := [] |}.

(** [resetScore()] *)
Definition resetScore (s : game) : game :=
  {| board := board s; currentPlayer := currentPlayer s;
     gameFinished := gameFinished s; scores := {| scoreX := 0; scoreO := 0 |};
     gameMode := gameMode s; aiThinking := aiThinking s;
     winnerCells := winnerCells s |}.

Definition setGameMode (v : mode) (s : game) : game :=
  {| board := board s; currentPlayer := currentPlayer s;
     gameFinished := gameFinished s; scores := scores s; gameMode := v;
     aiThinking := aiThinking s; winnerCells := winnerCells s |}.

Definition setAiThinking (v : bool) (s : game) : game :=
  {| board := board s; currentPlayer := currentPlayer s;
     gameFinished := gameFinished s; scores := scores s;
     gameMode := gameMode s; aiThinking := v; winnerCells := winnerCells s |}.

(** [switchMode(mode)] *)
Definition switchMode (m : mode) (s : game) : game :=
  initGame (setGameMode m s).

(** The symbol of a player as text. *)
Definition symbol (p : player) : string :=
  match p with X => "X" | O => "O" end.

(** [getStatusMessage()]; the texts end in the characters of the source
    file. *)
Definition getStatusMessage (s : game) : string :=
  if gameFinished s then
    if decide (0 < length (winnerCells s)) then
      symbol (match currentPlayer s with X => O | O => X end) +:+ " Wins! ğŸ‰"
    else "It's a draw! ğŸ¤"
  else if aiThinking s then "ğŸ¤– AI is thinking..."
  else symbol (currentPlayer s) +:+ "'s turn".

(** The condition of the effect that schedules [aiMove]. *)
Definition aiDue (s : game) : Prop :=
  gameMode s = ai ∧ currentPlayer s = O ∧
  gameFinished s = false ∧ aiThinking s = false.

Global Instance aiDue_dec s : Decision (aiDue s).
Proof. unfold aiDue. apply _. Defined.

(** The effect has no cleanup: every [aiMove] it schedules will run, with
    the values of the render that scheduled it, and so will every thinking
    timer an [aiMove] starts. *)
Record world := {
  live : game;
  scheduled : list game;   (* renders whose [aiMove] is waiting for its 300 ms *)
  thinking : list game;    (* renders whose thinking timer is running *)
  source : rng
}.

Definition initialWorld (g : rng) : world :=
  {| live := initialGame; scheduled := []; thinking := []; source := g |}.

(** [aiMove()] of the render [view], up to the start of the thinking timer;
    the duration of the timer takes one draw. *)
Definition aiMove (view : game) (w : world) : world :=
  if decide (gameFinished view = true ∨ aiThinking view = true) then w
  else
    let '(_, g) := random (source w) in
    {| live := setAiThinking true (live w); scheduled := scheduled w;
       thinking := thinking w ++ [view]; source := g |}.

(** The callback of the thinking timer started by the render [view]. *)
Definition thinkingDone (view : game) (s : game) : M game :=
  bestMoveIndex ← getBestMove (board view);
  let s :=
    match bestMoveIndex with
    | Null => s
    | Index i => makeMove view i O s
    | Undefined => s   (* [board[undefined] !== ''], [makeMove] returns at once *)
    end in
  mret (setAiThinking false s).

Inductive event :=
| CellClick (cellIndex : nat)   (* a click on a cell *)
| EffectRuns                    (* the effect runs after a render *)
| AiMove (k : nat)              (* the [k]-th scheduled [aiMove] is called *)
| ThinkingDone (k : nat)        (* the [k]-th thinking timer fires *)
| NewGame                       (* [initGame] *)
| ResetScore                    (* [resetScore] *)
| SwitchMode (m : mode).        (* [switchMode] *)

Definition onLive (f : game → game) (w : world) : world :=
  {| live := f (live w); scheduled := scheduled w; thinking := thinking w;
     source := source w |}.

Definition step (e : event) (w : world) : world :=
  match e with
  | CellClick cellIndex => onLive (handleCellClick cellIndex) w
  | EffectRuns =>
      if decide (aiDue (live w))
      then {| live := live w; scheduled := scheduled w ++ [live w];
              thinking := thinking w; source := source w |}
      else w
  | AiMove k =>
      match scheduled w !! k with
      | None => w
      | Some view =>
          aiMove view {| live := live w; scheduled := delete k (scheduled w);
                         thinking := thinking w; source := source w |}
      end
  | ThinkingDone k =>
      match thinking w !! k with
      | None => w
      | Some view =>
          match thinkingDone view (live w) (source w) with
          | (Normal s, g) =>
              {| live := s; scheduled := scheduled w;
                 thinking := delete k (thinking w); source := g |}
          | (Thrown _, g) =>
              {| live := live w; scheduled := scheduled w;
                 thinking := delete k (thinking w); source := g |}
          end
      end
  | NewGame => onLive initGame w
  | ResetScore => onLive resetScore w
  | SwitchMode m => onLive (switchMode m) w
  end.

Definition run (es : list event) (w : world) : world :=
  foldl (λ w e, step e w) w es.

Definition reachable (w : world) : Prop :=
  ∃ g es, w = run es (initialWorld g).

(** While a game is running the counts agree with the current player. *)
Definition inTurn (s : game) : Prop :=
  balancedBoard (board s) ∧
  (gameFinished s = false → dueOn (board s) (currentPlayer s)).

Definition consistent (w : world) : Prop :=
  inTurn (live w) ∧
  Forall (λ view, dueOn (board view) O) (scheduled w) ∧
  Forall (λ view, dueOn (board view) O) (thinking w).

End BasicGame.
(** ** Properties of the rule engine *)

Lemma checkWinner_Some boardState p combo :
  checkWinner boardState p = Some combo ↔
  ∃ k, winCombos !! k = Some combo ∧ line boardState p combo ∧
       ∀ j other, winCombos !! j = Some other → j < k → ¬ line boardState p other.
Proof.
  unfold checkWinner. split.
  - intros H. apply fmap_Some in H as [[k c] [H ->]].
    apply list_find_Some in H. exists k. exact H.
  - intros [k H]. apply fmap_Some. exists (k, combo). split; [|done].
    apply list_find_Some. exact H.
Qed.

Lemma checkWinner_None boardState p :
  checkWinner boardState p = None ↔
  ∀ combo, combo ∈ winCombos → ¬ line boardState p combo.
Proof.
  unfold checkWinner. rewrite fmap_None, list_find_None, Forall_forall. done.
Qed.

Lemma checkWinner_is_Some boardState p :
  is_Some (checkWinner boardState p) ↔
  ∃ combo, combo ∈ winCombos ∧ line boardState p combo.
Proof.
  split.
  - intros [combo H]. apply checkWinner_Some in H as (k & Hk & Hl & _).
    exists combo. split; [|done]. by eapply list_elem_of_lookup_2.
  - intros (combo & Hin & Hl).
    destruct (checkWinner boardState p) eqn:E; [by eexists|].
    exfalso. by eapply checkWinner_None.
Qed.

Lemma line_cells boardState p combo :
  line boardState p combo →
  ∃ a b c, combo = [a; b; c] ∧
    boardState !! a = Some (Mark p) ∧
    boardState !! b = Some (Mark p) ∧
    boardState !! c = Some (Mark p).
Proof.
  destruct combo as [|a [|b [|c [|? ?]]]]; simpl; try done.
  intros (?&?&?). by exists a, b, c.
Qed.

(** C1: [checkWinner(board, player)] returns a combination exactly when one of
    the 8 fixed triples (3 rows, 3 columns, 2 diagonals, in this order) has
    its three cells equal to [player]; the combination returned is the first
    such triple of the enumeration; and the three cells of a returned
    combination hold the same symbol, which is not the empty one. *)
Theorem checkWinner_first_line (boardState : Board) (p : player) :
  winCombos = [ [0; 1; 2]; [3; 4; 5]; [6; 7; 8];
                [0; 3; 6]; [1; 4; 7]; [2; 5; 8];
                [0; 4; 8]; [2; 4; 6] ] ∧
  (is_Some (checkWinner boardState p) ↔
   ∃ combo, combo ∈ winCombos ∧ line boardState p combo) ∧
  (∀ combo, checkWinner boardState p = Some combo ↔
     ∃ k, winCombos !! k = Some combo ∧ line boardState p combo ∧
          ∀ j other, winCombos !! j = Some other → j < k →
                     ¬ line boardState p other) ∧
  (∀ combo, checkWinner boardState p = Some combo →
     ∃ a b c, combo = [a; b; c] ∧
       boardState !! a = Some (Mark p) ∧
       boardState !! b = Some (Mark p) ∧
       boardState !! c = Some (Mark p) ∧
       boardState !! a ≠ Some Empty).
Proof.
  split; [reflexivity|]. split; [apply checkWinner_is_Some|].
  split; [intros combo; apply checkWinner_Some|].
  intros combo H. apply checkWinner_Some in H as (k & _ & Hl & _).
  apply line_cells in Hl as (a & b & c & -> & Ha & Hb & Hc).
  exists a, b, c. rewrite Ha. done.
Qed.
(** ** Empty cells *)

Section EmptyCells.
Implicit Types (boardState : Board) (f : nat → nat).

Lemma emptyCellsVia_cons f c boardState :
  emptyCellsVia f (c :: boardState) =
  (if decide (c = Empty) then [f 0] else []) ++ emptyCellsVia (f ∘ S) boardState.
Proof. unfold emptyCellsVia. simpl. by destruct (decide (c = Empty)). Qed.

Lemma elem_of_emptyCellsVia f boardState x :
  x ∈ emptyCellsVia f boardState ↔ ∃ i, x = f i ∧ boardState !! i = Some Empty.
Proof.
  revert f. induction boardState as [|c l IH]; intros f.
  - unfold emptyCellsVia; simpl. split; [intros H; inversion H | intros (i&_&H); done].
  - rewrite emptyCellsVia_cons, elem_of_app, IH. split.
    + intros [H|(i & -> & H)].
      * destruct (decide (c = Empty)) as [->|]; [|inversion H].
        apply list_elem_of_singleton in H as ->. by exists 0.
      * by exists (S i).
    + intros ([|i] & -> & H); simpl in H.
      * left. injection H as ->. rewrite decide_True by done. by left.
      * right. by exists i.
Qed.

Lemma emptyCellsVia_sorted f boardState :
  (∀ i j, i < j → f i < f j) → StronglySorted lt (emptyCellsVia f boardState).
Proof.
  revert f. induction boardState as [|c l IH]; intros f Hf.
  - constructor.
  - rewrite emptyCellsVia_cons.
    assert (Hl : StronglySorted lt (emptyCellsVia (f ∘ S) l)).
    { apply IH. intros i j Hij. unfold compose. apply Hf. lia. }
    destruct (decide (c = Empty)); simpl; [|done].
    constructor; [done|]. apply Forall_forall. intros x Hx.
    apply elem_of_emptyCellsVia in Hx as (i & -> & _). unfold compose. apply Hf. lia.
Qed.

Lemma emptyCellsVia_length f boardState :
  length (emptyCellsVia f boardState) = length (filter (λ c, c = Empty) boardState).
Proof.
  revert f. induction boardState as [|c l IH]; intros f; [done|].
  rewrite emptyCellsVia_cons, length_app, IH.
  rewrite (filter_cons (λ c, c = Empty)).
  by destruct (decide (c = Empty)).
Qed.
End EmptyCells.

Lemma getEmptyCells_via boardState : getEmptyCells boardState = emptyCellsVia id boardState.
Proof. reflexivity. Qed.

Lemma elem_of_getEmptyCells boardState i :
  i ∈ getEmptyCells boardState ↔ boardState !! i = Some Empty.
Proof.
  rewrite getEmptyCells_via, elem_of_emptyCellsVia. split.
  - by intros (j & -> & H).
  - intros H. by exists i.
Qed.

Lemma getEmptyCells_sorted boardState : StronglySorted lt (getEmptyCells boardState).
Proof. rewrite getEmptyCells_via. apply emptyCellsVia_sorted. by intros. Qed.

Lemma getEmptyCells_length boardState :
  length (getEmptyCells boardState) = length (filter (λ c, c = Empty) boardState).
Proof. rewrite getEmptyCells_via. apply emptyCellsVia_length. Qed.

Lemma getEmptyCells_lt boardState i :
  i ∈ getEmptyCells boardState → i < length boardState.
Proof. rewrite elem_of_getEmptyCells. apply lookup_lt_Some. Qed.

(** Writing [y] over [x] moves the count of the cells that satisfy [P] by
    the difference between the two. *)
Lemma filter_length_insert {A} (P : A → Prop) `{!∀ x, Decision (P x)}
    (l : list A) i x y :
  l !! i = Some x →
  length (filter P (<[i:=y]> l)) + (if decide (P x) then 1 else 0) =
  length (filter P l) + (if decide (P y) then 1 else 0).
Proof.
  revert i. induction l as [|z l IH]; intros [|i] Hl; simpl in Hl; try done.
  - injection Hl as ->. simpl. rewrite !(filter_cons P).
    destruct (decide (P x)), (decide (P y)); simpl; lia.
  - simpl. rewrite !(filter_cons P). specialize (IH i Hl).
    destruct (decide (P z)); simpl; lia.
Qed.

Lemma getEmptyCells_fill boardState i p :
  boardState !! i = Some Empty →
  S (length (getEmptyCells (<[i:=Mark p]> boardState))) =
  length (getEmptyCells boardState).
Proof.
  intros H. rewrite !getEmptyCells_length.
  pose proof (filter_length_insert (λ c, c = Empty) boardState i Empty (Mark p) H) as E.
  rewrite decide_True in E by done. rewrite decide_False in E by done. lia.
Qed.

(** ** Termination of the search *)

Section LoopFacts.
Variables rec1 rec2 : Board → num → num → option num.
Variable boardState : Board.
Hypothesis rec_mono : ∀ newBoard alpha beta v,
  rec1 newBoard alpha beta = Some v → rec2 newBoard alpha beta = Some v.

Lemma maxLoop_mono cells maxEval alpha beta v :
  maxLoop rec1 boardState cells maxEval alpha beta = Some v →
  maxLoop rec2 boardState cells maxEval alpha beta = Some v.
Proof.
  revert maxEval alpha. induction cells as [|c cells IH]; intros maxEval alpha; simpl; [done|].
  destruct (rec1 _ alpha beta) as [ev|] eqn:E; [|done].
  rewrite (rec_mono _ _ _ _ E). destruct (num_leb _ _); [done|apply IH].
Qed.

Lemma minLoop_mono cells minEval alpha beta v :
  minLoop rec1 boardState cells minEval alpha beta = Some v →
  minLoop rec2 boardState cells minEval alpha beta = Some v.
Proof.
  revert minEval beta. induction cells as [|c cells IH]; intros minEval beta; simpl; [done|].
  destruct (rec1 _ alpha beta) as [ev|] eqn:E; [|done].
  rewrite (rec_mono _ _ _ _ E). destruct (num_leb _ _); [done|apply IH].
Qed.
End LoopFacts.

Section LoopTotal.
Variable rec : Board → num → num → option num.
Variable boardState : Board.

Lemma maxLoop_total cells maxEval alpha beta :
  (∀ c a b, c ∈ cells → is_Some (rec (<[c:=Mark O]> boardState) a b)) →
  is_Some (maxLoop rec boardState cells maxEval alpha beta).
Proof.
  revert maxEval alpha. induction cells as [|c cells IH]; intros maxEval alpha H; simpl; [by eexists|].
  destruct (H c alpha beta) as [ev ->]; [by left|].
  destruct (num_leb _ _); [by eexists|]. apply IH. intros. apply H. by right.
Qed.

Lemma minLoop_total cells minEval alpha beta :
  (∀ c a b, c ∈ cells → is_Some (rec (<[c:=Mark X]> boardState) a b)) →
  is_Some (minLoop rec boardState cells minEval alpha beta).
Proof.
  revert minEval beta. induction cells as [|c cells IH]; intros minEval beta H; simpl; [by eexists|].
  destruct (H c alpha beta) as [ev ->]; [by left|].
  destruct (num_leb _ _); [by eexists|]. apply IH. intros. apply H. by right.
Qed.
End LoopTotal.

(** The body of [minimax], with the computation of [winner] folded into the
    two tests that use it. *)
Lemma minimax_eq fuel boardState depth isMaximizing alpha beta :
  minimax (S fuel) boardState depth isMaximizing alpha beta =
  if checkWinner boardState O is Some _ then Some (Fin (10 - depth))
  else if checkWinner boardState X is Some _ then Some (Fin (depth - 10))
  else if decide (getEmptyCells boardState = []) then Some (Fin 0)
  else if decide (depth > 6)%Z then Some (Fin 0)
  else if isMaximizing then
    maxLoop (λ newBoard, minimax fuel newBoard (depth + 1) false)
            boardState (getEmptyCells boardState) NegInf alpha beta
  else
    minLoop (λ newBoard, minimax fuel newBoard (depth + 1) true)
            boardState (getEmptyCells boardState) PosInf alpha beta.
Proof.
  cbn [minimax].
  destruct (checkWinner boardState O); [done|].
  destruct (checkWinner boardState X); [done|].
  rewrite decide_False by done. rewrite decide_False by done.
  destruct (getEmptyCells boardState) eqn:E; simpl length;
    repeat case_decide; done || lia.
Qed.

Lemma minimax_S fuel boardState depth isMaximizing alpha beta v :
  minimax fuel boardState depth isMaximizing alpha beta = Some v →
  minimax (S fuel) boardState depth isMaximizing alpha beta = Some v.
Proof.
  revert boardState depth isMaximizing alpha beta v.
  induction fuel as [|fuel IH]; intros b d m alpha beta v; [done|].
  intros H. rewrite minimax_eq in H |- *.
  destruct (checkWinner b O); [done|]. destruct (checkWinner b X); [done|].
  repeat case_decide; try done.
  destruct m.
  - eapply maxLoop_mono; [|exact H]. intros; by apply IH.
  - eapply minLoop_mono; [|exact H]. intros; by apply IH.
Qed.

Lemma minimax_le fuel fuel' boardState depth isMaximizing alpha beta v :
  fuel ≤ fuel' →
  minimax fuel boardState depth isMaximizing alpha beta = Some v →
  minimax fuel' boardState depth isMaximizing alpha beta = Some v.
Proof. induction 1; [done|]. intros. by apply minimax_S, IHle. Qed.

Lemma minimax_enough fuel boardState depth isMaximizing alpha beta :
  length (getEmptyCells boardState) < fuel ∨
  (0 < fuel ∧ (7 - depth < Z.of_nat fuel)%Z) →
  is_Some (minimax fuel boardState depth isMaximizing alpha beta).
Proof.
  revert boardState depth isMaximizing alpha beta.
  induction fuel as [|fuel IH]; intros b d m alpha beta Hfuel.
  { destruct Hfuel; lia. }
  rewrite minimax_eq.
  destruct (checkWinner b O); [by eexists|].
  destruct (checkWinner b X); [by eexists|].
  repeat case_decide; try by eexists.
  assert (Hrec : ∀ c p m' a b', c ∈ getEmptyCells b →
            is_Some (minimax fuel (<[c:=Mark p]> b) (d + 1) m' a b')).
  { intros c p m' a b' Hc. apply IH.
    apply elem_of_getEmptyCells in Hc.
    pose proof (getEmptyCells_fill b c p Hc). lia. }
  destruct m.
  - apply maxLoop_total. intros. by apply Hrec.
  - apply minLoop_total. intros. by apply Hrec.
Qed.

(** C8: the search terminates on every board, depth and side to move.  A
    nested call fills an empty cell, so it has strictly fewer empty cells
    and a depth larger by one; [depth > 6] cuts the search off.  Hence the
    call returns a value [v] as soon as the number of nested calls allowed
    exceeds the number of empty cells, or is positive and exceeds
    [7 - depth]. *)
Theorem minimax_terminates (boardState : Board) (depth : Z)
    (isMaximizing : bool) (alpha beta : num) :
  (∃ v, ∀ fuel,
     length (getEmptyCells boardState) < fuel ∨
     (0 < fuel ∧ (7 - depth < Z.of_nat fuel)%Z) →
     minimax fuel boardState depth isMaximizing alpha beta = Some v) ∧
  (∀ cellIndex p, cellIndex ∈ getEmptyCells boardState →
     length (getEmptyCells (<[cellIndex:=Mark p]> boardState)) <
     length (getEmptyCells boardState)).
Proof.
  split.
  - destruct (minimax_enough (searchFuel boardState) boardState depth
                isMaximizing alpha beta) as [v Hv].
    { left. unfold searchFuel. lia. }
    exists v. intros fuel Hfuel.
    destruct (minimax_enough fuel boardState depth isMaximizing alpha beta Hfuel)
      as [v' Hv'].
    destruct (Nat.le_ge_cases fuel (searchFuel boardState)) as [Hle|Hle].
    + pose proof (minimax_le _ _ _ _ _ _ _ _ Hle Hv') as E. congruence.
    + pose proof (minimax_le _ _ _ _ _ _ _ _ Hle Hv) as E. congruence.
  - intros c p Hc. apply elem_of_getEmptyCells in Hc.
    pose proof (getEmptyCells_fill boardState c p Hc). lia.
Qed.

(** ** The pruned search against the plain one *)

(** Facts about the order of [num] are settled by cases on the constructors
    and linear arithmetic on the finite values. *)
Ltac num_cases :=
  intros;
  repeat match goal with x : num |- _ => destruct x end;
  unfold clamp, num_max, num_min, num_gtb, num_leb in *; cbn in *; try done;
  repeat (match goal with
          | |- context [(?a <=? ?b)%Z] => destruct (Z.leb_spec a b)
          | H : context [(?a <=? ?b)%Z] |- _ => destruct (Z.leb_spec a b)
          end; cbn in *; try done);
  try (simplify_eq; first [done | lia | f_equal; lia]).

Section NumOrder.
Implicit Types a b m v t : num.

Lemma clamp_full v : clamp NegInf PosInf v = v.
Proof. by destruct v. Qed.

Lemma num_leb_refl a : num_leb a a = true.
Proof. num_cases. Qed.

Lemma num_leb_trans a b v : num_leb a b = true → num_leb b v = true → num_leb a v = true.
Proof. num_cases. Qed.

Lemma num_max_assoc a m v : num_max (num_max a m) v = num_max a (num_max m v).
Proof. num_cases. Qed.

Lemma num_min_assoc b m v : num_min (num_min b m) v = num_min b (num_min m v).
Proof. num_cases. Qed.

Lemma num_max_ub_l a v : num_leb a (num_max a v) = true.
Proof. num_cases. Qed.

Lemma num_max_ub_r a v : num_leb v (num_max a v) = true.
Proof. num_cases. Qed.

Lemma num_min_lb_l a v : num_leb (num_min a v) a = true.
Proof. num_cases. Qed.

Lemma num_min_lb_r a v : num_leb (num_min a v) v = true.
Proof. num_cases. Qed.

(** the window stays open while the running value is inside it *)
Lemma window_max a b m :
  num_leb b a = false → num_leb b m = false → num_leb b (num_max a m) = false.
Proof. num_cases. Qed.

Lemma window_min a b m :
  num_leb b a = false → num_leb m a = false → num_leb (num_min b m) a = false.
Proof. num_cases. Qed.

(** values at or beyond a bound of the window are cut to that bound *)
Lemma clamp_above a b v :
  num_leb b a = false → num_leb b v = true → clamp a b v = b.
Proof. num_cases. Qed.

Lemma clamp_below a b v :
  num_leb b a = false → num_leb v a = true → clamp a b v = a.
Proof. num_cases. Qed.

Lemma clamp_above_inv a b t :
  num_leb b a = false → clamp a b t = b → num_leb b t = true.
Proof. num_cases. Qed.

Lemma clamp_below_inv a b t :
  num_leb b a = false → clamp a b t = a → num_leb t a = true.
Proof. num_cases. Qed.

Lemma cut_max a b v :
  num_leb b a = false → num_leb b (num_max a v) = true → num_leb b v = true.
Proof. num_cases. Qed.

Lemma cut_min a b v :
  num_leb b a = false → num_leb (num_min b v) a = true → num_leb v a = true.
Proof. num_cases. Qed.

Lemma nocut_max b m v :
  num_leb b (num_max m v) = false ↔ num_leb b m = false ∧ num_leb b v = false.
Proof. split; [split|intros []]; num_cases. Qed.

Lemma nocut_min a m v :
  num_leb (num_min m v) a = false ↔ num_leb m a = false ∧ num_leb v a = false.
Proof. split; [split|intros []]; num_cases. Qed.

(** raising the lower bound to the running maximum, and back *)
Lemma clamp_max a b m v :
  num_leb b m = false → clamp a b (num_max m v) = clamp (num_max a m) b v.
Proof. num_cases. Qed.

Lemma clamp_min a b m v :
  num_leb m a = false → clamp a b (num_min m v) = clamp a (num_min b m) v.
Proof. num_cases. Qed.

Lemma clamp_eq_max a b m m' :
  num_leb b a = false → num_leb b m = false → clamp a b m = clamp a b m' →
  num_leb b m' = false ∧ num_max a m' = num_max a m.
Proof. split; num_cases. Qed.

Lemma clamp_eq_min a b m m' :
  num_leb b a = false → num_leb m a = false → clamp a b m = clamp a b m' →
  num_leb m' a = false ∧ num_min b m' = num_min b m.
Proof. split; num_cases. Qed.
End NumOrder.

Section PlainLoopFacts.
Variable rec : Board → option num.
Variable boardState : Board.

Lemma plainLoop_max_ge cells best T :
  plainLoop rec boardState true cells best = Some T → num_leb best T = true.
Proof.
  revert best. induction cells as [|c cells IH]; intros best; simpl.
  - intros [= <-]. apply num_leb_refl.
  - destruct (rec _) as [v|]; [|done]. intros H. apply IH in H.
    eapply num_leb_trans; [apply num_max_ub_l|exact H].
Qed.

Lemma plainLoop_min_le cells best T :
  plainLoop rec boardState false cells best = Some T → num_leb T best = true.
Proof.
  revert best. induction cells as [|c cells IH]; intros best; simpl.
  - intros [= <-]. apply num_leb_refl.
  - destruct (rec _) as [v|]; [|done]. intros H. apply IH in H.
    eapply num_leb_trans; [exact H|apply num_min_lb_l].
Qed.
End PlainLoopFacts.

Section Pruning.
Variable rec : Board → num → num → option num.
Variable recPlain : Board → option num.
Variable boardState : Board.
Variables alpha beta : num.
Hypothesis window : num_leb beta alpha = false.

Section Max.
Hypothesis rec_ok : ∀ newBoard a t,
  num_leb beta a = false → recPlain newBoard = Some t →
  ∃ v, rec newBoard a beta = Some v ∧ clamp a beta v = clamp a beta t.

Lemma maxLoop_clamp cells maxEval best T :
  num_leb beta maxEval = false →
  clamp alpha beta maxEval = clamp alpha beta best →
  plainLoop recPlain boardState true cells best = Some T →
  ∃ R, maxLoop rec boardState cells maxEval (num_max alpha maxEval) beta = Some R ∧
       clamp alpha beta R = clamp alpha beta T.
Proof.
  revert maxEval best.
  induction cells as [|c cells IH]; intros maxEval best Hlt Hcl; simpl.
  - intros [= <-]. by exists maxEval.
  - destruct (recPlain _) as [t|] eqn:Et; [|done]. intros HT.
    pose proof (window_max _ _ _ window Hlt) as Hopen.
    destruct (rec_ok (<[c:=Mark O]> boardState) (num_max alpha maxEval) t)
      as (v & -> & Hv); [done..|].
    destruct (clamp_eq_max _ _ _ _ window Hlt Hcl) as [Hbest Hsame].
    destruct (num_leb beta (num_max (num_max alpha maxEval) v)) eqn:Ecut.
    + eexists; split; [done|].
      apply cut_max in Ecut; [|done].
      rewrite (clamp_above _ _ v) in Hv by done.
      symmetry in Hv. apply clamp_above_inv in Hv; [|done].
      apply plainLoop_max_ge in HT.
      rewrite !clamp_above; try done.
      * eapply num_leb_trans; [exact Hv|].
        eapply num_leb_trans; [apply num_max_ub_r|exact HT].
      * eapply num_leb_trans; [exact Ecut|apply num_max_ub_r].
    + rewrite num_max_assoc in Ecut |- *.
      apply nocut_max in Ecut as [_ Ecut].
      apply (IH _ (num_max best t)); [|  |done].
      * exact Ecut.
      * rewrite !clamp_max by done. rewrite Hsame. exact Hv.
Qed.
End Max.

Section Min.
Hypothesis rec_ok : ∀ newBoard b t,
  num_leb b alpha = false → recPlain newBoard = Some t →
  ∃ v, rec newBoard alpha b = Some v ∧ clamp alpha b v = clamp alpha b t.

Lemma minLoop_clamp cells minEval best T :
  num_leb minEval alpha = false →
  clamp alpha beta minEval = clamp alpha beta best →
  plainLoop recPlain boardState false cells best = Some T →
  ∃ R, minLoop rec boardState cells minEval alpha (num_min beta minEval) = Some R ∧
       clamp alpha beta R = clamp alpha beta T.
Proof.
  revert minEval best.
  induction cells as [|c cells IH]; intros minEval best Hlt Hcl; simpl.
  - intros [= <-]. by exists minEval.
  - destruct (recPlain _) as [t|] eqn:Et; [|done]. intros HT.
    pose proof (window_min _ _ _ window Hlt) as Hopen.
    destruct (rec_ok (<[c:=Mark X]> boardState) (num_min beta minEval) t)
      as (v & -> & Hv); [done..|].
    destruct (clamp_eq_min _ _ _ _ window Hlt Hcl) as [Hbest Hsame].
    destruct (num_leb (num_min (num_min beta minEval) v) alpha) eqn:Ecut.
    + eexists; split; [done|].
      apply cut_min in Ecut; [|done].
      rewrite (clamp_below _ _ v) in Hv by done.
      symmetry in Hv. apply clamp_below_inv in Hv; [|done].
      apply plainLoop_min_le in HT.
      rewrite !clamp_below; try done.
      * eapply num_leb_trans; [exact HT|].
        eapply num_leb_trans; [apply num_min_lb_r|exact Hv].
      * eapply num_leb_trans; [apply num_min_lb_r|exact Ecut].
    + rewrite num_min_assoc in Ecut |- *.
      apply nocut_min in Ecut as [_ Ecut].
      apply (IH _ (num_min best t)); [|  |done].
      * exact Ecut.
      * rewrite !clamp_min by done. rewrite Hsame. exact Hv.
Qed.
End Min.
End Pruning.

Section PlainTotal.
Variables rec1 rec2 : Board → option num.
Variable boardState : Board.
Variable isMaximizing : bool.

Lemma plainLoop_mono cells best v :
  (∀ newBoard t, rec1 newBoard = Some t → rec2 newBoard = Some t) →
  plainLoop rec1 boardState isMaximizing cells best = Some v →
  plainLoop rec2 boardState isMaximizing cells best = Some v.
Proof.
  intros Hrec. revert best.
  induction cells as [|c cells IH]; intros best; simpl; [done|].
  destruct (rec1 _) as [t|] eqn:E; [|done].
  rewrite (Hrec _ _ E). apply IH.
Qed.

Lemma plainLoop_total cells best :
  (∀ c, c ∈ cells →
     is_Some (rec1 (<[c:=Mark (if isMaximizing then O else X)]> boardState))) →
  is_Some (plainLoop rec1 boardState isMaximizing cells best).
Proof.
  revert best. induction cells as [|c cells IH]; intros best H; simpl; [by eexists|].
  destruct (H c) as [t ->]; [by left|]. apply IH. intros. apply H. by right.
Qed.
End PlainTotal.

Lemma plainMinimax_eq fuel boardState depth isMaximizing :
  plainMinimax (S fuel) boardState depth isMaximizing =
  if checkWinner boardState O is Some _ then Some (Fin (10 - depth))
  else if checkWinner boardState X is Some _ then Some (Fin (depth - 10))
  else if decide (getEmptyCells boardState = []) then Some (Fin 0)
  else if decide (depth > 6)%Z then Some (Fin 0)
  else
    plainLoop (λ newBoard, plainMinimax fuel newBoard (depth + 1) (negb isMaximizing))
              boardState isMaximizing (getEmptyCells boardState)
              (if isMaximizing then NegInf else PosInf).
Proof. reflexivity. Qed.

Lemma plainMinimax_S fuel boardState depth isMaximizing v :
  plainMinimax fuel boardState depth isMaximizing = Some v →
  plainMinimax (S fuel) boardState depth isMaximizing = Some v.
Proof.
  revert boardState depth isMaximizing v.
  induction fuel as [|fuel IH]; intros b d m v; [done|].
  intros H. rewrite plainMinimax_eq in H |- *.
  destruct (checkWinner b O); [done|]. destruct (checkWinner b X); [done|].
  repeat case_decide; try done.
  eapply plainLoop_mono; [|exact H]. intros; by apply IH.
Qed.

Lemma plainMinimax_le fuel fuel' boardState depth isMaximizing v :
  fuel ≤ fuel' →
  plainMinimax fuel boardState depth isMaximizing = Some v →
  plainMinimax fuel' boardState depth isMaximizing = Some v.
Proof. induction 1; [done|]. intros. by apply plainMinimax_S, IHle. Qed.

Lemma plainMinimax_enough fuel boardState depth isMaximizing :
  length (getEmptyCells boardState) < fuel →
  is_Some (plainMinimax fuel boardState depth isMaximizing).
Proof.
  revert boardState depth isMaximizing.
  induction fuel as [|fuel IH]; intros b d m Hfuel; [lia|].
  rewrite plainMinimax_eq.
  destruct (checkWinner b O); [by eexists|].
  destruct (checkWinner b X); [by eexists|].
  repeat case_decide; try by eexists.
  apply plainLoop_total. intros c Hc. apply IH.
  apply elem_of_getEmptyCells in Hc.
  pose proof (getEmptyCells_fill b c (if m then O else X) Hc). lia.
Qed.

Lemma num_max_NegInf a : num_max a NegInf = a.
Proof. by destruct a. Qed.

Lemma num_min_PosInf b : num_min b PosInf = b.
Proof. by destruct b. Qed.

Lemma window_NegInf a b : num_leb b a = false → num_leb b NegInf = false.
Proof. num_cases. Qed.

Lemma window_PosInf a b : num_leb b a = false → num_leb PosInf a = false.
Proof. num_cases. Qed.

(** Inside an open window the pruned search and the plain search agree up to
    the cut at the bounds of the window. *)
Lemma minimax_clamp fuel boardState depth isMaximizing alpha beta t :
  num_leb beta alpha = false →
  plainMinimax fuel boardState depth isMaximizing = Some t →
  ∃ v, minimax fuel boardState depth isMaximizing alpha beta = Some v ∧
       clamp alpha beta v = clamp alpha beta t.
Proof.
  revert boardState depth isMaximizing alpha beta t.
  induction fuel as [|fuel IH]; intros b d m alpha beta t Hwin; [done|].
  rewrite minimax_eq, plainMinimax_eq.
  destruct (checkWinner b O); [intros [= <-]; by eexists|].
  destruct (checkWinner b X); [intros [= <-]; by eexists|].
  case_decide; [intros [= <-]; by eexists|].
  case_decide; [intros [= <-]; by eexists|].
  destruct m; cbn [negb]; intros Ht.
  - destruct (maxLoop_clamp
                 (λ newBoard, minimax fuel newBoard (d + 1) false)
                 (λ newBoard, plainMinimax fuel newBoard (d + 1) false)
                 b alpha beta Hwin
                 (λ newBoard a t' Ha Ht', IH newBoard (d + 1)%Z false a beta t' Ha Ht')
                 (getEmptyCells b) NegInf NegInf t
                 (window_NegInf _ _ Hwin) eq_refl Ht) as (R & HR & E).
    rewrite num_max_NegInf in HR. by exists R.
  - destruct (minLoop_clamp
                 (λ newBoard, minimax fuel newBoard (d + 1) true)
                 (λ newBoard, plainMinimax fuel newBoard (d + 1) true)
                 b alpha beta Hwin
                 (λ newBoard b' t' Hb Ht', IH newBoard (d + 1)%Z true alpha b' t' Hb Ht')
                 (getEmptyCells b) PosInf PosInf t
                 (window_PosInf _ _ Hwin) eq_refl Ht) as (R & HR & E).
    rewrite num_min_PosInf in HR. by exists R.
Qed.

(** C7: called with the full window, [alpha = -Infinity] and
    [beta = Infinity], the search with alpha-beta pruning returns the value
    of the plain depth-weighted minimax over the same evaluation, for every
    board, depth and side to move. *)
Theorem alpha_beta_is_minimax (boardState : Board) (depth : Z)
    (isMaximizing : bool) :
  ∃ v,
    (∀ extra,
       minimax (searchFuel boardState + extra) boardState depth isMaximizing
               NegInf PosInf = Some v ∧
       plainMinimax (searchFuel boardState + extra) boardState depth
                    isMaximizing = Some v) ∧
    minimaxValue boardState depth isMaximizing NegInf PosInf = v ∧
    plainMinimaxValue boardState depth isMaximizing = v.
Proof.
  destruct (plainMinimax_enough (searchFuel boardState) boardState depth isMaximizing)
    as [t Ht]; [unfold searchFuel; lia|].
  destruct (minimax_clamp _ _ _ _ NegInf PosInf t eq_refl Ht) as (v & Hv & E).
  rewrite !clamp_full in E. subst v.
  exists t. split; [|split].
  - intros extra. split.
    + eapply minimax_le; [|exact Hv]. lia.
    + eapply plainMinimax_le; [|exact Ht]. lia.
  - unfold minimaxValue. by rewrite Hv.
  - unfold plainMinimaxValue. by rewrite Ht.
Qed.

(** ** Values of the search *)

Lemma within_weaken lo hi lo' hi' v :
  (lo' ≤ lo)%Z → (hi ≤ hi')%Z → within lo hi v → within lo' hi' v.
Proof. intros ?? (z & -> & ?). exists z. split; [done|lia]. Qed.

Lemma within_max lo hi a b :
  within lo hi a → within lo hi b → within lo hi (num_max a b).
Proof.
  intros (x & -> & ?) (y & -> & ?). unfold num_max, num_leb.
  destruct (x <=? y)%Z; by eexists.
Qed.

Lemma within_min lo hi a b :
  within lo hi a → within lo hi b → within lo hi (num_min a b).
Proof.
  intros (x & -> & ?) (y & -> & ?). unfold num_min, num_leb.
  destruct (x <=? y)%Z; by eexists.
Qed.

Section LoopBounds.
Variable rec : Board → num → num → option num.
Variable boardState : Board.
Variables lo hi : Z.
Hypothesis rec_within : ∀ newBoard a b v,
  rec newBoard a b = Some v → within lo hi v.

Lemma maxLoop_within cells maxEval alpha beta R :
  (maxEval = NegInf ∧ cells ≠ []) ∨ within lo hi maxEval →
  maxLoop rec boardState cells maxEval alpha beta = Some R →
  within lo hi R.
Proof.
  revert maxEval alpha.
  induction cells as [|c cells IH]; intros maxEval alpha Hm; simpl.
  - intros [= <-]. by destruct Hm as [[_ ?]|?].
  - destruct (rec _ _ _) as [ev|] eqn:E; [|done].
    apply rec_within in E.
    assert (within lo hi (num_max maxEval ev)) as Hm'.
    { destruct Hm as [[-> _]|?]; [done|by apply within_max]. }
    destruct (num_leb _ _); [by intros [= <-]|].
    apply IH. by right.
Qed.

Lemma minLoop_within cells minEval alpha beta R :
  (minEval = PosInf ∧ cells ≠ []) ∨ within lo hi minEval →
  minLoop rec boardState cells minEval alpha beta = Some R →
  within lo hi R.
Proof.
  revert minEval beta.
  induction cells as [|c cells IH]; intros minEval beta Hm; simpl.
  - intros [= <-]. by destruct Hm as [[_ ?]|?].
  - destruct (rec _ _ _) as [ev|] eqn:E; [|done].
    apply rec_within in E.
    assert (within lo hi (num_min minEval ev)) as Hm'.
    { destruct Hm as [[-> _]|?]; [|by apply within_min].
      destruct E as (z & -> & ?). by exists z. }
    destruct (num_leb _ _); [by intros [= <-]|].
    apply IH. by right.
Qed.
End LoopBounds.

(** At depth [d ≤ 10] every value of the search lies between [d - 10] and
    [10 - d]. *)
Lemma minimax_within fuel boardState depth isMaximizing alpha beta v :
  (depth ≤ 10)%Z →
  minimax fuel boardState depth isMaximizing alpha beta = Some v →
  within (depth - 10) (10 - depth) v.
Proof.
  revert boardState depth isMaximizing alpha beta v.
  induction fuel as [|fuel IH]; intros b d m alpha beta v Hd; [done|].
  rewrite minimax_eq.
  destruct (checkWinner b O); [intros [= <-]; eexists; split; [done|lia]|].
  destruct (checkWinner b X); [intros [= <-]; eexists; split; [done|lia]|].
  case_decide; [intros [= <-]; eexists; split; [done|lia]|].
  case_decide; [intros [= <-]; eexists; split; [done|lia]|].
  assert (Hrec : ∀ m' newBoard a b' v',
            minimax fuel newBoard (d + 1) m' a b' = Some v' →
            within (d + 1 - 10) (10 - (d + 1)) v').
  { intros. eapply IH; [lia|done]. }
  destruct m; intros Hloop.
  - eapply within_weaken; [| |eapply maxLoop_within; [apply (Hrec false)| |exact Hloop]];
      [lia|lia|by left].
  - eapply within_weaken; [| |eapply minLoop_within; [apply (Hrec true)| |exact Hloop]];
      [lia|lia|by left].
Qed.

Lemma valueOfMove_win boardState cellIndex :
  winsAt boardState O cellIndex → valueOfMove boardState cellIndex = Fin 10.
Proof.
  intros [combo H]. unfold valueOfMove, minimaxValue, searchFuel.
  rewrite minimax_eq, H. done.
Qed.

Lemma valueOfMove_no_win boardState cellIndex :
  ¬ winsAt boardState O cellIndex →
  within (-10) 9 (valueOfMove boardState cellIndex).
Proof.
  intros Hno. unfold valueOfMove, minimaxValue, searchFuel.
  set (newBoard := <[cellIndex:=Mark O]> boardState).
  destruct (minimax_enough (S (length (getEmptyCells newBoard))) newBoard 0
              false NegInf PosInf) as [v Hv]; [left; lia|].
  rewrite Hv. simpl. rewrite minimax_eq in Hv.
  destruct (checkWinner newBoard O) eqn:EO; [destruct Hno; by eexists|].
  destruct (checkWinner newBoard X);
    [injection Hv as <-; eexists; split; [done|lia]|].
  case_decide; [injection Hv as <-; eexists; split; [done|lia]|].
  case_decide; [lia|].
  eapply within_weaken;
    [| |eapply (minLoop_within _ _ (-9) 9); [|by left|exact Hv]]; [lia|lia|].
  intros nb a b' v' H'. by apply minimax_within in H'.
Qed.

(** Every move has a finite value of at most 10, and the value is 10 exactly
    for the moves that win at once. *)
Lemma valueOfMove_cases boardState cellIndex :
  ∃ z, valueOfMove boardState cellIndex = Fin z ∧ (-10 ≤ z ≤ 10)%Z ∧
       (z = 10%Z ↔ winsAt boardState O cellIndex).
Proof.
  destruct (decide (winsAt boardState O cellIndex)) as [Hw|Hw].
  - exists 10%Z. rewrite valueOfMove_win by done. by repeat split.
  - destruct (valueOfMove_no_win _ _ Hw) as (z & -> & ?).
    exists z. split; [done|]. split; [lia|]. split; [lia|done].
Qed.

(** The loop of the expert branch keeps the first cell with the largest
    value, when one beats the starting value. *)
Lemma bestLoop_first boardState cells bestMove bestValue bm bv :
  bestLoop boardState cells bestMove bestValue = (bm, bv) →
  (bm = bestMove ∧ bv = bestValue ∧
   ∀ c, c ∈ cells → num_leb (valueOfMove boardState c) bestValue = true) ∨
  (∃ before c after,
     cells = before ++ c :: after ∧ bm = Z.of_nat c ∧
     bv = valueOfMove boardState c ∧
     num_gtb (valueOfMove boardState c) bestValue = true ∧
     (∀ x, x ∈ before →
        num_gtb (valueOfMove boardState c) (valueOfMove boardState x) = true) ∧
     (∀ x, x ∈ after →
        num_leb (valueOfMove boardState x) (valueOfMove boardState c) = true)).
Proof.
  revert bestMove bestValue.
  induction cells as [|c cells IH]; intros bestMove bestValue; simpl.
  - intros [= <- <-]. left. repeat split. intros c Hc. inversion Hc.
  - fold (valueOfMove boardState c).
    destruct (num_gtb (valueOfMove boardState c) bestValue) eqn:Egt; intros H.
    + apply IH in H as [(-> & -> & Hall)|(before & c' & after & -> & -> & -> & Hgt & Hb & Ha)].
      * right. exists [], c, cells.
        split; [done|]. split; [done|]. split; [done|]. split; [done|].
        split; [|done]. intros x Hx. inversion Hx.
      * right. exists (c :: before), c', after.
        split; [done|]. split; [done|]. split; [done|]. split; [|split; [|done]].
        -- clear -Egt Hgt. revert Egt Hgt.
           generalize (valueOfMove boardState c) (valueOfMove boardState c').
           intros. num_cases.
        -- intros x Hx. apply elem_of_cons in Hx as [->|Hx]; [|by apply Hb].
           done.
    + apply IH in H as [(-> & -> & Hall)|(before & c' & after & -> & -> & -> & Hgt & Hb & Ha)].
      * left. repeat split. intros x Hx.
        apply elem_of_cons in Hx as [->|Hx]; [|by apply Hall].
        unfold num_gtb in Egt. by destruct (num_leb _ _).
      * right. exists (c :: before), c', after.
        split; [done|]. split; [done|]. split; [done|]. split; [done|].
        split; [|done].
        intros x Hx. apply elem_of_cons in Hx as [->|Hx]; [|by apply Hb].
        clear -Egt Hgt. revert Egt Hgt.
        generalize (valueOfMove boardState c) (valueOfMove boardState c').
        intros. num_cases.
Qed.

(** ** The expert takes an immediate win *)

Lemma bind_random {A} (k : Q → M A) g :
  (random ≫= k) g = k (peek g) (next g).
Proof. reflexivity. Qed.

Lemma num_gtb_leb a b : num_gtb a b = true → num_leb b a = true.
Proof. num_cases. Qed.

Lemma num_leb_10 z : num_leb (Fin 10) (Fin z) = true → (10 ≤ z)%Z.
Proof. unfold num_leb. apply Z.leb_le. Qed.

(** C3: on a board where O has an immediately winning empty cell, when the
    error injection does not fire (the draw is not below the error rate, as
    with an error rate of 0), the expert tier returns a cell whose placement
    wins for O.  The cell returned has the highest value, and every empty
    cell of smaller index has a strictly smaller value: among cells of equal
    value the first in ascending index order is chosen. *)
Theorem expert_takes_the_win (opponent : profile) (boardState : Board) (g : rng) :
  difficulty opponent = "expert" →
  ¬ (peek g < errorRate opponent)%Q →
  (∃ c, c ∈ getEmptyCells boardState ∧ winsAt boardState O c) →
  ∃ c,
    getBestMoveFor opponent boardState g = (Normal (Index c), next g) ∧
    c ∈ getEmptyCells boardState ∧
    winsAt boardState O c ∧
    (∀ c', c' ∈ getEmptyCells boardState →
       num_leb (valueOfMove boardState c') (valueOfMove boardState c) = true) ∧
    (∀ c', c' ∈ getEmptyCells boardState → c' < c →
       num_gtb (valueOfMove boardState c) (valueOfMove boardState c') = true).
Proof.
  intros Hexpert Hquiet (w & Hw & Hwin).
  unfold getBestMoveFor.
  rewrite decide_False by (destruct (getEmptyCells boardState); [inversion Hw|done]).
  rewrite bind_random.
  destruct (Qlt_le_dec _ _) as [?|_]; [done|].
  rewrite Hexpert. do 2 (rewrite decide_False by done). rewrite decide_True by done.
  destruct (bestLoop boardState (getEmptyCells boardState) (-1) NegInf)
    as [bm bv] eqn:Eloop.
  apply bestLoop_first in Eloop
    as [(_ & _ & Hall)|(before & c & after & Hcells & -> & -> & _ & Hb & Ha)].
  { specialize (Hall w Hw). rewrite valueOfMove_win in Hall by done. done. }
  assert (Hc : c ∈ getEmptyCells boardState).
  { rewrite Hcells. apply elem_of_app. right. by left. }
  assert (Hmax : ∀ c', c' ∈ getEmptyCells boardState →
            num_leb (valueOfMove boardState c') (valueOfMove boardState c) = true).
  { intros c' Hc'. rewrite Hcells in Hc'.
    apply elem_of_app in Hc' as [?|Hc']; [by apply num_gtb_leb, Hb|].
    apply elem_of_cons in Hc' as [->|?]; [apply num_leb_refl|by apply Ha]. }
  exists c. rewrite decide_True by lia. rewrite Nat2Z.id.
  split; [done|]. split; [done|]. split; [|split; [done|]].
  - specialize (Hmax w Hw). rewrite valueOfMove_win in Hmax by done.
    destruct (valueOfMove_cases boardState c) as (z & Ez & Hz & Hiff).
    rewrite Ez in Hmax. apply num_leb_10 in Hmax. apply Hiff. lia.
  - intros c' Hc' Hlt. apply Hb.
    pose proof (getEmptyCells_sorted boardState) as Hs. rewrite Hcells in Hs.
    rewrite Hcells in Hc'. apply elem_of_app in Hc' as [?|Hc']; [done|].
    apply StronglySorted_app_1_r, StronglySorted_cons in Hs as [Hs _].
    apply elem_of_cons in Hc' as [->|Hc']; [lia|].
    rewrite Forall_forall in Hs. specialize (Hs c' Hc'). lia.
Qed.

Lemma expert_takes_the_win_witness :
  ∃ c,
    getBestMoveFor sureExpert sampleBoard halves = (Normal (Index c), next halves) ∧
    c ∈ getEmptyCells sampleBoard ∧
    winsAt sampleBoard O c ∧
    (∀ c', c' ∈ getEmptyCells sampleBoard →
       num_leb (valueOfMove sampleBoard c') (valueOfMove sampleBoard c) = true) ∧
    (∀ c', c' ∈ getEmptyCells sampleBoard → c' < c →
       num_gtb (valueOfMove sampleBoard c) (valueOfMove sampleBoard c') = true).
Proof.
  apply (expert_takes_the_win sureExpert sampleBoard halves).
  - reflexivity.
  - intros H. vm_compute in H. discriminate H.
  - exists 5. split.
    + apply elem_of_getEmptyCells. reflexivity.
    + exists [3; 4; 5]. vm_compute. reflexivity.
Defined.

Example expert_on_sampleBoard :
  getBestMove victor sampleBoard halves = (Normal (Index 5), next halves).
Proof. vm_compute. reflexivity. Qed.

(** ** Random choices *)

Lemma validSource_peek g : validSource g → (0 <= peek g)%Q ∧ (peek g < 1)%Q.
Proof. intros H. apply H. Qed.

Lemma validSource_next g : validSource g → validSource (next g).
Proof. intros H n. apply H. Qed.

Lemma floor_below (r : Q) (n : nat) :
  (0 <= r)%Q → (r < 1)%Q → 0 < n →
  (0 ≤ Qfloor (r * inject_Z (Z.of_nat n)) < Z.of_nat n)%Z.
Proof.
  intros H0 H1 Hn.
  assert (Hpos : (0 < inject_Z (Z.of_nat n))%Q).
  { change 0%Q with (inject_Z 0). rewrite <- Zlt_Qlt. lia. }
  split.
  - change 0%Z with (Qfloor 0). apply Qfloor_resp_le.
    apply Qmult_le_0_compat; [done|]. by apply Qlt_le_weak.
  - rewrite Zlt_Qlt.
    eapply Qle_lt_trans; [apply Qfloor_le|].
    rewrite <- (Qmult_1_l (inject_Z (Z.of_nat n))) at 2.
    by apply Qmult_lt_compat_r.
Qed.

Lemma pick_in cells k :
  (0 ≤ k < Z.of_nat (length cells))%Z → ∃ i, pick cells k = Index i ∧ i ∈ cells.
Proof.
  intros Hk. unfold pick. rewrite decide_True by lia.
  destruct (lookup_lt_is_Some_2 cells (Z.to_nat k)) as [i Hi]; [lia|].
  rewrite Hi. exists i. split; [done|]. by eapply list_elem_of_lookup_2.
Qed.

Lemma randomElement_in cells g :
  (0 <= peek g)%Q → (peek g < 1)%Q → cells ≠ [] →
  ∃ i, randomElement cells g = (Normal (Index i), next g) ∧ i ∈ cells.
Proof.
  intros H0 H1 Hne.
  destruct (pick_in cells (Qfloor (peek g * inject_Z (Z.of_nat (length cells)))))
    as (i & Hi & Hin).
  { apply floor_below; [done..|]. destruct cells; [done|simpl; lia]. }
  exists i. split; [|done]. unfold randomElement, randomBelow.
  cbv [mbind M_bind mret M_ret random]. by rewrite Hi.
Qed.

(** ** The strategic heuristic *)

Lemma firstWinning_Some boardState p cells c :
  firstWinning boardState p cells = Some c →
  c ∈ cells ∧ winsAt boardState p c.
Proof.
  unfold firstWinning. intros H.
  apply fmap_Some in H as [[k c'] [H ->]].
  apply list_find_Some in H as (Hk & Hw & _).
  split; [by eapply list_elem_of_lookup_2|done].
Qed.

Lemma firstWinning_None boardState p cells :
  firstWinning boardState p cells = None →
  ∀ c, c ∈ cells → ¬ winsAt boardState p c.
Proof.
  unfold firstWinning. rewrite fmap_None, list_find_None, Forall_forall. done.
Qed.

Lemma corner_available (boardState : Board) c :
  c ∈ filter (λ i, boardState !! i = Some Empty) corners ↔
  c ∈ corners ∧ boardState !! c = Some Empty.
Proof. rewrite list_elem_of_filter. tauto. Qed.

(** What [getStrategicMove] returns on a board with an empty cell. *)
Lemma getStrategicMove_priorities boardState g :
  getEmptyCells boardState ≠ [] → (0 <= peek g)%Q → (peek g < 1)%Q →
  ∃ c g', getStrategicMove boardState g = (Normal (Index c), g') ∧
    (g' = g ∨ g' = next g) ∧
    boardState !! c = Some Empty ∧
    (canWin boardState O → winsAt boardState O c) ∧
    (¬ canWin boardState O → canWin boardState X → winsAt boardState X c) ∧
    (¬ canWin boardState O → ¬ canWin boardState X →
       boardState !! 4 = Some Empty → c = 4) ∧
    (¬ canWin boardState O → ¬ canWin boardState X →
       boardState !! 4 ≠ Some Empty →
       (∃ k, k ∈ corners ∧ boardState !! k = Some Empty) → c ∈ corners).
Proof.
  intros Hne H0 H1. unfold getStrategicMove.
  destruct (firstWinning boardState O _) as [c|] eqn:EO.
  { apply firstWinning_Some in EO as [Hc Hw].
    exists c, g. split; [done|]. split; [by left|].
    split; [by apply elem_of_getEmptyCells|].
    assert (canWin boardState O) by by exists c.
    repeat split; done. }
  pose proof (firstWinning_None _ _ _ EO) as HnoO.
  assert (¬ canWin boardState O) as HO by (intros (c & ? & ?); by eapply HnoO).
  destruct (firstWinning boardState X _) as [c|] eqn:EX.
  { apply firstWinning_Some in EX as [Hc Hw].
    exists c, g. split; [done|]. split; [by left|].
    split; [by apply elem_of_getEmptyCells|].
    assert (canWin boardState X) by by exists c.
    repeat split; done. }
  pose proof (firstWinning_None _ _ _ EX) as HnoX.
  assert (¬ canWin boardState X) as HX by (intros (c & ? & ?); by eapply HnoX).
  case_decide as Hcentre.
  { exists 4, g. repeat split; done || by left. }
  case_decide as Hcorner.
  - destruct (randomElement_in (filter (λ i, boardState !! i = Some Empty) corners) g)
      as (c & -> & Hc); [done..| |].
    { intros E. rewrite E in Hcorner. simpl in Hcorner. lia. }
    apply corner_available in Hc as [Hc He].
    exists c, (next g). repeat split; done || by right.
  - destruct (randomElement_in (getEmptyCells boardState) g)
      as (c & -> & Hc); [done..|].
    exists c, (next g). split; [done|]. split; [by right|].
    split; [by apply elem_of_getEmptyCells|].
    repeat split; try done.
    intros _ _ _ (k & Hk & He). exfalso. apply Hcorner.
    assert (k ∈ filter (λ i, boardState !! i = Some Empty) corners) as Hin
      by by apply corner_available.
    destruct (filter _ corners); [inversion Hin|simpl; lia].
Qed.

Lemma Basic_getBestMove_strategic boardState :
  getEmptyCells boardState ≠ [] →
  Basic.getBestMove boardState = getStrategicMove boardState.
Proof.
  intros Hne. unfold Basic.getBestMove.
  rewrite decide_False by (by destruct (getEmptyCells boardState)).
  reflexivity.
Qed.

Lemma corners_are c : c ∈ corners ↔ c = 0 ∨ c = 2 ∨ c = 6 ∨ c = 8.
Proof.
  unfold corners. rewrite !elem_of_cons, elem_of_nil. tauto.
Qed.

(** C4: on a board with an empty cell the strategic heuristic follows its
    priorities: it returns an empty cell, one that wins for O if some empty
    cell does; else one that would win for X if some empty cell does; else
    the center, index 4, if it is empty; else one of the corners 0, 2, 6 and
    8 (an empty one) if one of these four cells is empty; else some empty
    cell.  The heuristic of the earlier component is the same function. *)
Theorem strategic_priorities (boardState : Board) (g : rng) :
  getEmptyCells boardState ≠ [] → (0 <= peek g)%Q → (peek g < 1)%Q →
  Basic.getBestMove boardState g = getStrategicMove boardState g ∧
  ∃ c g', getStrategicMove boardState g = (Normal (Index c), g') ∧
    boardState !! c = Some Empty ∧
    (canWin boardState O → winsAt boardState O c) ∧
    (¬ canWin boardState O → canWin boardState X → winsAt boardState X c) ∧
    (¬ canWin boardState O → ¬ canWin boardState X →
       boardState !! 4 = Some Empty → c = 4) ∧
    (¬ canWin boardState O → ¬ canWin boardState X →
       boardState !! 4 ≠ Some Empty →
       boardState !! 0 = Some Empty ∨ boardState !! 2 = Some Empty ∨
       boardState !! 6 = Some Empty ∨ boardState !! 8 = Some Empty →
       c = 0 ∨ c = 2 ∨ c = 6 ∨ c = 8).
Proof.
  intros Hne H0 H1. split; [by rewrite Basic_getBestMove_strategic|].
  destruct (getStrategicMove_priorities boardState g Hne H0 H1)
    as (c & g' & E & _ & Hc & HO & HX & H4 & Hcorner).
  exists c, g'. split; [done|]. split; [done|]. split; [done|].
  split; [done|]. split; [done|].
  intros HnO HnX Hn4 Hsome. apply corners_are. apply Hcorner; try done.
  destruct Hsome as [?|[?|[?|?]]];
    [exists 0|exists 2|exists 6|exists 8]; (split; [apply corners_are; tauto|done]).
Qed.

Lemma no_immediate_win boardState p :
  firstWinning boardState p (getEmptyCells boardState) = None →
  ¬ canWin boardState p.
Proof.
  intros H (c & Hc & Hw). by eapply firstWinning_None.
Qed.

(** On [_ _ _ / _ X _ / _ _ _] nobody can win at once and the center is
    taken: the heuristic answers with a corner. *)
Lemma strategic_priorities_witness :
  ∃ c g', getStrategicMove centerTaken halves = (Normal (Index c), g') ∧
    centerTaken !! c = Some Empty ∧
    (c = 0 ∨ c = 2 ∨ c = 6 ∨ c = 8).
Proof.
  destruct (strategic_priorities centerTaken halves) as (_ & c & g' & E & Hc & H).
  - vm_compute. discriminate.
  - vm_compute. discriminate.
  - vm_compute. reflexivity.
  - exists c, g'. split; [exact E|]. split; [exact Hc|].
    destruct H as (_ & _ & _ & Hcorner). apply Hcorner.
    + apply no_immediate_win. vm_compute. reflexivity.
    + apply no_immediate_win. vm_compute. reflexivity.
    + vm_compute. discriminate.
    + left. reflexivity.
Defined.

Example strategic_on_centerTaken :
  getStrategicMove centerTaken halves = (Normal (Index 6), next halves).
Proof. vm_compute. reflexivity. Qed.

(** ** Move selection *)

Lemma pick_first cells :
  cells ≠ [] → ∃ i, pick cells 0 = Index i ∧ i ∈ cells.
Proof. intros H. apply pick_in. destruct cells; [done|simpl; lia]. Qed.

Lemma bestLoop_in boardState cells bm bv :
  bestLoop boardState cells (-1) NegInf = (bm, bv) →
  bm = (-1)%Z ∨ ∃ c, bm = Z.of_nat c ∧ c ∈ cells.
Proof.
  intros H. apply bestLoop_first in H
    as [(-> & _)|(before & c & after & -> & -> & _)]; [by left|].
  right. exists c. split; [done|]. apply elem_of_app. right. by left.
Qed.

Lemma getBestMoveFor_in opponent boardState g :
  validSource g → getEmptyCells boardState ≠ [] →
  ∃ c g', getBestMoveFor opponent boardState g = (Normal (Index c), g') ∧
          c ∈ getEmptyCells boardState.
Proof.
  intros Hg Hne.
  pose proof (validSource_peek _ Hg) as [H0 H1].
  pose proof (validSource_next _ Hg) as Hg1.
  pose proof (validSource_peek _ Hg1) as [H10 H11].
  pose proof (validSource_next _ Hg1) as Hg2.
  pose proof (validSource_peek _ Hg2) as [H20 H21].
  assert (Hrandom : ∀ g0, (0 <= peek g0)%Q → (peek g0 < 1)%Q →
            ∃ c g', randomElement (getEmptyCells boardState) g0 = (Normal (Index c), g') ∧
                    c ∈ getEmptyCells boardState).
  { intros g0 ? ?. destruct (randomElement_in (getEmptyCells boardState) g0)
      as (c & E & Hc); [done..|]. by exists c, (next g0). }
  assert (Hstrategic : ∀ g0, (0 <= peek g0)%Q → (peek g0 < 1)%Q →
            ∃ c g', getStrategicMove boardState g0 = (Normal (Index c), g') ∧
                    c ∈ getEmptyCells boardState).
  { intros g0 ? ?. destruct (getStrategicMove_priorities boardState g0)
      as (c & g' & E & _ & Hc & _); [done..|].
    exists c, g'. split; [done|]. by apply elem_of_getEmptyCells. }
  assert (Hfirst : ∀ g0, ∃ c g',
            (mret (pick (getEmptyCells boardState) 0) : M move) g0 = (Normal (Index c), g') ∧
            c ∈ getEmptyCells boardState).
  { intros g0. destruct (pick_first _ Hne) as (c & E & Hc).
    exists c, g0. split; [|done]. cbv [mret M_ret]. by rewrite E. }
  unfold getBestMoveFor.
  rewrite decide_False by (by destruct (getEmptyCells boardState)).
  rewrite bind_random.
  destruct (Qlt_le_dec _ _); [by apply Hrandom|].
  case_decide.
  { rewrite bind_random. destruct (Qlt_le_dec _ _); [by apply Hstrategic|by apply Hrandom]. }
  case_decide; [by apply Hstrategic|].
  case_decide; [|by apply Hfirst].
  destruct (bestLoop _ _ _ _) as [bm bv] eqn:Eloop.
  apply bestLoop_in in Eloop as [->|(c & -> & Hc)].
  - rewrite decide_False by (intros ?; done). apply Hfirst.
  - rewrite decide_True by lia. rewrite Nat2Z.id. by exists c, (next g).
Qed.

(** C10: on a board with an empty cell, for every opponent profile (easy,
    medium, expert, or any other tier) and every sequence of draws, the
    cell that [getBestMove] returns is an index of the board whose cell is
    empty; on a board of 9 cells it is an index from 0 to 8. *)
Theorem selected_cell_is_empty (boardState : Board) (g : rng) :
  validSource g → getEmptyCells boardState ≠ [] →
  (∀ opponent, ∃ c g',
     getBestMoveFor opponent boardState g = (Normal (Index c), g') ∧
     boardState !! c = Some Empty ∧ c < length boardState ∧
     (length boardState = 9 → c ≤ 8)) ∧
  (∀ selectedOpponent, ∃ c g',
     getBestMove selectedOpponent boardState g = (Normal (Index c), g') ∧
     boardState !! c = Some Empty ∧ c < length boardState ∧
     (length boardState = 9 → c ≤ 8)).
Proof.
  intros Hg Hne.
  assert (∀ opponent, ∃ c g',
     getBestMoveFor opponent boardState g = (Normal (Index c), g') ∧
     boardState !! c = Some Empty ∧ c < length boardState ∧
     (length boardState = 9 → c ≤ 8)) as H.
  { intros opponent.
    destruct (getBestMoveFor_in opponent boardState g Hg Hne) as (c & g' & E & Hc).
    exists c, g'. split; [done|].
    pose proof (getEmptyCells_lt _ _ Hc).
    split; [by apply elem_of_getEmptyCells|]. split; lia. }
  split; [done|]. intros id. apply H.
Qed.

Lemma halves_valid : validSource halves.
Proof. intros n. split; vm_compute; [discriminate|reflexivity]. Qed.

Lemma selected_cell_is_empty_witness :
  (∀ opponent, ∃ c g',
     getBestMoveFor opponent sampleBoard halves = (Normal (Index c), g') ∧
     sampleBoard !! c = Some Empty ∧ c < length sampleBoard ∧
     (length sampleBoard = 9 → c ≤ 8)) ∧
  (∀ selectedOpponent, ∃ c g',
     getBestMove selectedOpponent sampleBoard halves = (Normal (Index c), g') ∧
     sampleBoard !! c = Some Empty ∧ c < length sampleBoard ∧
     (length sampleBoard = 9 → c ≤ 8)).
Proof.
  apply (selected_cell_is_empty sampleBoard halves).
  - intros n. split; vm_compute; [discriminate|reflexivity].
  - vm_compute. discriminate.
Defined.

(** ** Move selection on a board without empty cells *)

(** C9, as the code has it: on a board with no empty cell [getBestMove]
    returns [null]; it throws nothing and takes no draw, in both versions of
    the component, and the timer callback that asked for the move then
    applies none. *)
Theorem no_move_on_full_board (boardState : Board) (g : rng) :
  getEmptyCells boardState = [] →
  (∀ opponent, getBestMoveFor opponent boardState g = (Normal Null, g)) ∧
  (∀ selectedOpponent,
     getBestMove selectedOpponent boardState g = (Normal Null, g)) ∧
  Basic.getBestMove boardState g = (Normal Null, g) ∧
  (∀ view s, board view = boardState →
     thinkingDone view s g = (Normal (setIsThinking false s), g)).
Proof.
  intros Hfull.
  assert (∀ opponent, getBestMoveFor opponent boardState g = (Normal Null, g)) as H.
  { intros opponent. unfold getBestMoveFor. rewrite Hfull. reflexivity. }
  split; [done|]. split; [intros; apply H|]. split.
  - unfold Basic.getBestMove. rewrite Hfull. reflexivity.
  - intros view s <-. unfold thinkingDone, getBestMove.
    cbv [mbind M_bind]. rewrite H. reflexivity.
Qed.

Lemma no_move_on_full_board_witness :
  (∀ opponent, getBestMoveFor opponent fullBoard halves = (Normal Null, halves)) ∧
  (∀ selectedOpponent,
     getBestMove selectedOpponent fullBoard halves = (Normal Null, halves)) ∧
  Basic.getBestMove fullBoard halves = (Normal Null, halves) ∧
  (∀ view s, board view = fullBoard →
     thinkingDone view s halves = (Normal (setIsThinking false s), halves)).
Proof. apply (no_move_on_full_board fullBoard halves). reflexivity. Defined.

(** C9, as stated, fails: on a full board [getBestMove] throws no error. *)
Lemma getBestMove_full_board_no_error :
  getEmptyCells fullBoard = [] ∧
  ¬ (∃ e g', getBestMove victor fullBoard halves = (Thrown e, g')) ∧
  ¬ (∃ e g', Basic.getBestMove fullBoard halves = (Thrown e, g')).
Proof.
  split; [reflexivity|]. split; intros (e & g' & H); vm_compute in H; discriminate H.
Qed.

(** ** The controller: applying a move *)

Lemma makeMove_rejected view live i p :
  gameFinished view = true ∨ board view !! i ≠ Some Empty ∨ isThinking view = true →
  makeMove view i p live = live.
Proof. intros H. unfold makeMove. by rewrite decide_True. Qed.

(** An accepted move: the board of the calling render with [p] at [i], then
    one of the three outcomes. *)
Lemma makeMove_accepted view live i p :
  gameFinished view = false → board view !! i = Some Empty →
  isThinking view = false →
  let newBoard := <[i := Mark p]> (board view) in
  makeMove view i p live =
  match checkWinner newBoard p with
  | Some winCombo => handleWin p winCombo (setBoard newBoard live)
  | None =>
      if decide (length (getEmptyCells newBoard) = 0)
      then setGameFinished true (setBoard newBoard live)
      else setCurrentPlayer (other p) (setBoard newBoard live)
  end.
Proof.
  intros Hf Hc Ht. unfold makeMove. rewrite decide_False; [done|].
  rewrite Hf, Hc, Ht. intros [?|[?|?]]; done.
Qed.

Lemma makeMove_cases view live i p :
  makeMove view i p live = live ∨
  (gameFinished view = false ∧ board view !! i = Some Empty ∧
   isThinking view = false ∧
   board (makeMove view i p live) = <[i := Mark p]> (board view)).
Proof.
  destruct (decide (gameFinished view = true ∨ board view !! i ≠ Some Empty
                    ∨ isThinking view = true)) as [H|H].
  - left. by apply makeMove_rejected.
  - right.
    assert (gameFinished view = false) as Hf by (destruct (gameFinished view); tauto).
    assert (board view !! i = Some Empty) as Hc
      by (destruct (decide (board view !! i = Some Empty)); tauto).
    assert (isThinking view = false) as Ht by (destruct (isThinking view); tauto).
    repeat split; try done.
    rewrite makeMove_accepted by done. simpl.
    destruct (checkWinner _ _); [done|]. by case_decide.
Qed.

Lemma Basic_makeMove_cases view live i p :
  Basic.makeMove view i p live = live ∨
  (Basic.gameFinished view = false ∧ Basic.board view !! i = Some Empty ∧
   Basic.aiThinking view = false ∧
   Basic.board (Basic.makeMove view i p live) = <[i := Mark p]> (Basic.board view)).
Proof.
  unfold Basic.makeMove. case_decide as H; [by left|]. right.
  assert (Basic.gameFinished view = false) as Hf
    by (destruct (Basic.gameFinished view); tauto).
  assert (Basic.board view !! i = Some Empty) as Hc
    by (destruct (decide (Basic.board view !! i = Some Empty)); tauto).
  assert (Basic.aiThinking view = false) as Ht
    by (destruct (Basic.aiThinking view); tauto).
  repeat split; try done.
  destruct (checkWinner _ _); [done|]. by case_decide.
Qed.





(** ** The controller: a winning move *)

Lemma score_addWin_same p prev : score (addWin p prev) p = score prev p + 1.
Proof. by destruct p. Qed.

Lemma score_addWin_other p prev : score (addWin p prev) (other p) = score prev (other p).
Proof. by destruct p. Qed.

(** C6: when an applied move produces a win for [p], the state is finished,
    its winning cells are the combination found and the winner read from
    them is [p]; the score of [p] grows by exactly 1 and the score of the
    other player is unchanged. *)
Theorem makeMove_win (view live : game) (cellIndex : nat) (p : player)
    (winCombo : list nat) :
  gameFinished view = false → board view !! cellIndex = Some Empty →
  isThinking view = false →
  checkWinner (<[cellIndex := Mark p]> (board view)) p = Some winCombo →
  let after := makeMove view cellIndex p live in
  board after = <[cellIndex := Mark p]> (board view) ∧
  gameFinished after = true ∧
  winnerCells after = winCombo ∧
  winner after = Some p ∧
  score (scores after) p = score (scores live) p + 1 ∧
  score (scores after) (other p) = score (scores live) (other p) ∧
  currentPlayer after = currentPlayer live.
Proof.
  intros Hf Hc Ht Hwin after. subst after.
  rewrite makeMove_accepted by done. simpl. rewrite Hwin.
  split; [done|]. split; [done|]. split; [done|].
  split; [|split; [apply score_addWin_same|split; [apply score_addWin_other|done]]].
  apply checkWinner_Some in Hwin as (k & _ & Hl & _).
  apply line_cells in Hl as (a & b & c & -> & Ha & _).
  unfold winner. simpl. by rewrite Ha.
Qed.

Lemma makeMove_win_witness :
  let view := setBoard sampleBoard initialGame in
  let after := makeMove view 2 X view in
  board after = <[2 := Mark X]> sampleBoard ∧
  gameFinished after = true ∧
  winnerCells after = [0; 1; 2] ∧
  winner after = Some X ∧
  score (scores after) X = score (scores view) X + 1 ∧
  score (scores after) (other X) = score (scores view) (other X) ∧
  currentPlayer after = currentPlayer view.
Proof.
  intros view.
  apply (makeMove_win view view 2 X [0; 1; 2]); reflexivity.
Defined.

(** ** The controller: the balance of the board *)

Lemma countOf_fill_same (boardState : Board) i p :
  boardState !! i = Some Empty →
  countOf p (<[i := Mark p]> boardState) = countOf p boardState + 1.
Proof.
  intros H. unfold countOf.
  pose proof (filter_length_insert (λ c, c = Mark p) boardState i Empty (Mark p) H) as E.
  rewrite decide_False in E by done. rewrite decide_True in E by done. lia.
Qed.

Lemma countOf_fill_other (boardState : Board) i p :
  boardState !! i = Some Empty →
  countOf (other p) (<[i := Mark p]> boardState) = countOf (other p) boardState.
Proof.
  intros H. unfold countOf.
  pose proof (filter_length_insert (λ c, c = Mark (other p)) boardState i Empty (Mark p) H) as E.
  rewrite decide_False in E by done.
  rewrite decide_False in E by (destruct p; done). lia.
Qed.

(** After the move of the player who is due the board is balanced and the
    other player is due. *)
Lemma dueOn_fill (boardState : Board) i p :
  boardState !! i = Some Empty → dueOn boardState p →
  balancedBoard (<[i := Mark p]> boardState) ∧
  dueOn (<[i := Mark p]> boardState) (other p).
Proof.
  intros H Hdue.
  pose proof (countOf_fill_same boardState i p H) as Es.
  pose proof (countOf_fill_other boardState i p H) as Eo.
  unfold balancedBoard, dueOn in *. destruct p; simpl in *; lia.
Qed.

Lemma makeMove_outcome view live i p :
  gameFinished view = false → board view !! i = Some Empty →
  isThinking view = false →
  let after := makeMove view i p live in
  board after = <[i := Mark p]> (board view) ∧
  (gameFinished after = true ∨
   (gameFinished after = gameFinished live ∧ currentPlayer after = other p)).
Proof.
  intros Hf Hc Ht after. subst after. rewrite makeMove_accepted by done. simpl.
  destruct (checkWinner _ _); [split; [done|by left]|].
  case_decide; (split; [done|]); [by left|by right].
Qed.

Lemma makeMove_inTurn view live i p :
  dueOn (board view) p → inTurn live → inTurn (makeMove view i p live).
Proof.
  intros Hdue Hlive.
  destruct (makeMove_cases view live i p) as [->|(Hf & Hc & Ht & _)]; [done|].
  destruct (makeMove_outcome view live i p Hf Hc Ht) as [Hb Hout].
  destruct (dueOn_fill _ i p Hc Hdue) as [Hbal Hnext].
  unfold inTurn. rewrite Hb. split; [done|]. intros Hrun.
  destruct Hout as [E|[_ ->]]; [congruence|done].
Qed.

Lemma handleCellClick_inTurn i s : inTurn s → inTurn (handleCellClick i s).
Proof.
  intros Hs. unfold handleCellClick. case_decide; [done|].
  destruct (makeMove_cases s s i (currentPlayer s)) as [->|(Hf & _)]; [done|].
  apply makeMove_inTurn; [|done]. by apply Hs.
Qed.

Lemma emptyBoard_balanced : balancedBoard emptyBoard ∧ dueOn emptyBoard X.
Proof. split; [left|]; reflexivity. Qed.

Lemma initGame_inTurn s : inTurn (initGame s).
Proof. split; [|intros _]; apply emptyBoard_balanced. Qed.

Lemma thinkingDone_inTurn view s g s' g' :
  awaitsO view → inTurn s →
  thinkingDone view s g = (Normal s', g') → inTurn s'.
Proof.
  intros Hview Hs. unfold thinkingDone. cbv [mbind M_bind mret M_ret].
  destruct (getBestMove _ _ g) as [[[| |i]|e] g1]; intros [= <- <-]; try done.
  change (inTurn (makeMove view i O s)). by apply makeMove_inTurn.
Qed.

Lemma step_consistent e w : consistent w → consistent (step e w).
Proof.
  intros [Hlive Hpending]. destruct e; simpl.
  - split; [by apply handleCellClick_inTurn|done].
  - case_decide as Hdue; [|done]. destruct Hdue as (Hm & Hp & Hf & Ht).
    unfold opponentMove. rewrite decide_False by (rewrite Hf, Ht; intros [?|?]; done).
    simpl. split; [done|]. apply Forall_app. split; [done|].
    apply Forall_singleton. unfold awaitsO.
    destruct Hlive as [_ Hturn]. specialize (Hturn Hf). by rewrite Hp in Hturn.
  - destruct (pending w !! k) as [view|] eqn:Ek; [|done].
    assert (awaitsO view) as Hview.
    { rewrite Forall_forall in Hpending. apply Hpending.
      by eapply list_elem_of_lookup_2. }
    assert (Forall awaitsO (delete k (pending w))) as Hrest
      by by apply Forall_delete.
    destruct (thinkingDone view (live w) (source w)) as [[s'|e] g'] eqn:Edone.
    + split; [|done]. simpl. by eapply thinkingDone_inTurn.
    + done.
  - split; [apply initGame_inTurn|done].
  - done.
  - split; [apply initGame_inTurn|done].
  - split; [|done]. simpl. unfold selectOpponent.
    case_decide; [apply initGame_inTurn|done].
Qed.

Lemma run_consistent es w : consistent w → consistent (run es w).
Proof.
  revert w. induction es as [|e es IH]; intros w Hw; [done|].
  apply IH. by apply step_consistent.
Qed.

Lemma initialWorld_consistent g : consistent (initialWorld g).
Proof.
  split; [|constructor]. split; [|intros _]; apply emptyBoard_balanced.
Qed.

(** C5: in every state reachable from the first render by the events of the
    controller (clicks on cells, the opponent's turn and the end of its
    thinking, new game, score reset, change of mode or of opponent), the
    board satisfies [count(X) - count(O) ∈ {0, 1}]. *)
Theorem reachable_balanced (w : world) :
  reachable w →
  (Z.of_nat (countOf X (board (live w))) - Z.of_nat (countOf O (board (live w))) = 0)%Z ∨
  (Z.of_nat (countOf X (board (live w))) - Z.of_nat (countOf O (board (live w))) = 1)%Z.
Proof.
  intros (g & es & ->).
  apply (run_consistent es (initialWorld g) (initialWorld_consistent g)).
Qed.

Lemma reachable_balanced_witness :
  let w := run [SwitchMode computer; CellClick 4; OpponentTurn; ThinkingDone 0;
                CellClick 8]
               (initialWorld halves) in
  (Z.of_nat (countOf X (board (live w))) - Z.of_nat (countOf O (board (live w))) = 0)%Z ∨
  (Z.of_nat (countOf X (board (live w))) - Z.of_nat (countOf O (board (live w))) = 1)%Z.
Proof.
  intros w. apply (reachable_balanced w).
  exists halves, [SwitchMode computer; CellClick 4; OpponentTurn; ThinkingDone 0;
                  CellClick 8].
  reflexivity.
Defined.

Lemma minimax_terminates_witness :
  ∃ v, minimax 9 sampleBoard 0 false NegInf PosInf = Some v.
Proof.
  destruct (minimax_terminates sampleBoard 0 false NegInf PosInf) as [[v Hv] _].
  exists v. apply Hv. left. vm_compute. lia.
Defined.

(** ** Further properties of the rule engine *)

Lemma sorted_lookup_lt (l : list nat) i j x y :
  StronglySorted lt l → i < j → l !! i = Some x → l !! j = Some y → x < y.
Proof.
  intros Hs. revert i j. induction Hs as [|a l Hs IH Ha]; intros i j Hij Hi Hj; [done|].
  destruct j as [|j]; [lia|]. simpl in Hj. destruct i as [|i]; simpl in Hi.
  - injection Hi as ->. rewrite Forall_forall in Ha. apply Ha.
    by eapply list_elem_of_lookup_2.
  - apply (IH i j); [lia|done..].
Qed.

Lemma sorted_NoDup (l : list nat) : StronglySorted lt l → NoDup l.
Proof.
  induction 1 as [|a l Hs IH Ha]; constructor; [|done].
  intros Hin. rewrite Forall_forall in Ha. specialize (Ha a Hin). lia.
Qed.

(** X1: [getEmptyCells] lists exactly the indices whose cell is empty, in
    strictly ascending order and so without repetition; an index out of
    range is never listed. *)
Theorem getEmptyCells_exact (boardState : Board) :
  (∀ i, i ∈ getEmptyCells boardState ↔ boardState !! i = Some Empty) ∧
  StronglySorted lt (getEmptyCells boardState) ∧
  NoDup (getEmptyCells boardState) ∧
  (∀ i, i ∈ getEmptyCells boardState → i < length boardState) ∧
  length (getEmptyCells boardState) ≤ length boardState.
Proof.
  split; [intros i; apply elem_of_getEmptyCells|].
  split; [apply getEmptyCells_sorted|].
  split; [apply sorted_NoDup, getEmptyCells_sorted|].
  split; [intros i; apply getEmptyCells_lt|].
  rewrite getEmptyCells_length. apply length_filter.
Qed.

Lemma line_fill_other (boardState : Board) i p q combo :
  boardState !! i = Some Empty → q ≠ p →
  line (<[i := Mark p]> boardState) q combo ↔ line boardState q combo.
Proof.
  intros Hi Hq.
  assert (∀ a, <[i := Mark p]> boardState !! a = Some (Mark q) ↔
               boardState !! a = Some (Mark q)) as Hsame.
  { intros a. destruct (decide (i = a)) as [<-|Hne].
    - rewrite list_lookup_insert_eq by (by eapply lookup_lt_Some).
      rewrite Hi. split; intros [=]; congruence.
    - by rewrite list_lookup_insert_ne. }
  destruct combo as [|a [|b [|c [|? ?]]]]; simpl; try done.
  by rewrite !Hsame.
Qed.

Lemma line_fill_same (boardState : Board) i p combo :
  boardState !! i = Some Empty →
  line boardState p combo → line (<[i := Mark p]> boardState) p combo.
Proof.
  intros Hi.
  assert (∀ a, boardState !! a = Some (Mark p) →
               <[i := Mark p]> boardState !! a = Some (Mark p)) as Hkeep.
  { intros a Ha. destruct (decide (i = a)) as [<-|Hne]; [congruence|].
    by rewrite list_lookup_insert_ne. }
  destruct combo as [|a [|b [|c [|? ?]]]]; simpl; try done.
  intros (?&?&?). auto.
Qed.

Lemma checkWinner_fill_other (boardState : Board) i p q :
  boardState !! i = Some Empty → q ≠ p →
  checkWinner (<[i := Mark p]> boardState) q = checkWinner boardState q.
Proof.
  intros Hi Hq. unfold checkWinner. f_equal.
  apply list_find_ext. intros combo. by apply line_fill_other.
Qed.

(** X2: a mark placed on an empty cell cannot change the other player's
    result of [checkWinner], and it keeps every line its own player already
    has. *)
Theorem checkWinner_after_fill (boardState : Board) (cellIndex : nat) (p : player) :
  boardState !! cellIndex = Some Empty →
  checkWinner (<[cellIndex := Mark p]> boardState) (other p) =
    checkWinner boardState (other p) ∧
  (is_Some (checkWinner boardState p) →
   is_Some (checkWinner (<[cellIndex := Mark p]> boardState) p)).
Proof.
  intros Hi. split.
  - apply checkWinner_fill_other; [done|]. by destruct p.
  - rewrite !checkWinner_is_Some. intros (combo & Hin & Hl).
    exists combo. split; [done|]. by apply line_fill_same.
Qed.

Lemma checkWinner_after_fill_witness :
  checkWinner (<[2 := Mark X]> sampleBoard) (other X) = checkWinner sampleBoard (other X) ∧
  (is_Some (checkWinner sampleBoard X) →
   is_Some (checkWinner (<[2 := Mark X]> sampleBoard) X)).
Proof. apply (checkWinner_after_fill sampleBoard 2 X). reflexivity. Defined.

(** ** Further properties of the search *)

Lemma clamp_inside a b v t :
  num_leb b a = false → clamp a b v = clamp a b t →
  (num_leb t a = false → num_leb b t = false → v = t) ∧
  (num_leb t a = true → num_leb v a = true) ∧
  (num_leb b t = true → num_leb b v = true).
Proof. intros ? ?. repeat split; num_cases. Qed.

(** X3: for every window with [alpha < beta], the pruned search returns the
    plain minimax value when that value lies strictly inside the window; a
    plain value at or below [alpha] gives a result at or below [alpha], and
    a plain value at or above [beta] gives a result at or above [beta]. *)
Theorem pruned_search_in_window (boardState : Board) (depth : Z)
    (isMaximizing : bool) (alpha beta : num) :
  num_leb beta alpha = false →
  ∃ v t,
    (∀ extra,
       minimax (searchFuel boardState + extra) boardState depth isMaximizing
               alpha beta = Some v ∧
       plainMinimax (searchFuel boardState + extra) boardState depth
                    isMaximizing = Some t) ∧
    (num_leb t alpha = false → num_leb beta t = false → v = t) ∧
    (num_leb t alpha = true → num_leb v alpha = true) ∧
    (num_leb beta t = true → num_leb beta v = true).
Proof.
  intros Hwin.
  destruct (plainMinimax_enough (searchFuel boardState) boardState depth isMaximizing)
    as [t Ht]; [unfold searchFuel; lia|].
  destruct (minimax_clamp _ _ _ _ alpha beta t Hwin Ht) as (v & Hv & E).
  exists v, t. split; [|by apply clamp_inside].
  intros extra. split.
  - eapply minimax_le; [|exact Hv]. lia.
  - eapply plainMinimax_le; [|exact Ht]. lia.
Qed.

Lemma pruned_search_in_window_witness :
  ∃ v t,
    (∀ extra,
       minimax (searchFuel sampleBoard + extra) sampleBoard 0 true
               (Fin (-3)) (Fin 3) = Some v ∧
       plainMinimax (searchFuel sampleBoard + extra) sampleBoard 0 true = Some t) ∧
    (num_leb t (Fin (-3)) = false → num_leb (Fin 3) t = false → v = t) ∧
    (num_leb t (Fin (-3)) = true → num_leb v (Fin (-3)) = true) ∧
    (num_leb (Fin 3) t = true → num_leb (Fin 3) v = true).
Proof.
  apply (pruned_search_in_window sampleBoard 0 true (Fin (-3)) (Fin 3)).
  reflexivity.
Defined.

(** X4: at a depth of at most 10 the value of a call lies between
    [depth - 10] and [10 - depth], whatever the window; a board on which O
    has a line is worth [10 - depth], and one on which only X has a line
    [depth - 10]. *)
Theorem minimaxValue_range (boardState : Board) (depth : Z)
    (isMaximizing : bool) (alpha beta : num) :
  ((depth ≤ 10)%Z →
   within (depth - 10) (10 - depth)
          (minimaxValue boardState depth isMaximizing alpha beta)) ∧
  (is_Some (checkWinner boardState O) →
   minimaxValue boardState depth isMaximizing alpha beta = Fin (10 - depth)) ∧
  (checkWinner boardState O = None → is_Some (checkWinner boardState X) →
   minimaxValue boardState depth isMaximizing alpha beta = Fin (depth - 10)).
Proof.
  unfold minimaxValue, searchFuel. split; [|split].
  - intros Hd.
    destruct (minimax_enough (S (length (getEmptyCells boardState))) boardState
                depth isMaximizing alpha beta) as [v Hv]; [left; lia|].
    rewrite Hv. simpl. by eapply minimax_within.
  - intros [c Hc]. by rewrite minimax_eq, Hc.
  - intros HO [c Hc]. by rewrite minimax_eq, HO, Hc.
Qed.

Lemma minimaxValue_range_witness :
  within (0 - 10) (10 - 0) (minimaxValue sampleBoard 0 true NegInf PosInf).
Proof.
  apply (proj1 (minimaxValue_range sampleBoard 0 true NegInf PosInf)). lia.
Defined.

(** ** Further properties of the strategic heuristic *)

Lemma firstWinning_least boardState p c :
  firstWinning boardState p (getEmptyCells boardState) = Some c →
  ∀ c', c' < c → boardState !! c' = Some Empty → ¬ winsAt boardState p c'.
Proof.
  unfold firstWinning. intros H.
  apply fmap_Some in H as [[k x] [H ->]]. simpl.
  apply list_find_Some in H as (Hk & _ & Hfirst).
  intros c' Hlt Hc'. apply elem_of_getEmptyCells in Hc'.
  apply list_elem_of_lookup in Hc' as [j Hj].
  apply (Hfirst j c' Hj).
  destruct (decide (j < k)) as [|Hge]; [done|].
  destruct (decide (j = k)) as [->|Hne]; [simplify_eq; lia|].
  pose proof (sorted_lookup_lt _ k j x c' (getEmptyCells_sorted boardState)
                ltac:(lia) Hk Hj). lia.
Qed.

(** X5: the first three steps of [getStrategicMove] take no draw and return
    the least index that qualifies: the lowest empty cell that wins for O;
    failing that the lowest empty cell that would win for X; failing that
    the center. *)
Theorem strategic_least_cell (boardState : Board) (g : rng) :
  (canWin boardState O →
   ∃ c, getStrategicMove boardState g = (Normal (Index c), g) ∧
        boardState !! c = Some Empty ∧ winsAt boardState O c ∧
        ∀ c', c' < c → boardState !! c' = Some Empty → ¬ winsAt boardState O c') ∧
  (¬ canWin boardState O → canWin boardState X →
   ∃ c, getStrategicMove boardState g = (Normal (Index c), g) ∧
        boardState !! c = Some Empty ∧ winsAt boardState X c ∧
        ∀ c', c' < c → boardState !! c' = Some Empty → ¬ winsAt boardState X c') ∧
  (¬ canWin boardState O → ¬ canWin boardState X →
   boardState !! 4 = Some Empty →
   getStrategicMove boardState g = (Normal (Index 4), g)).
Proof.
  assert (Hfind : ∀ p, canWin boardState p →
            ∃ c, firstWinning boardState p (getEmptyCells boardState) = Some c).
  { intros p (c & Hc & Hw).
    destruct (firstWinning boardState p _) as [c'|] eqn:E; [by eexists|].
    exfalso. by eapply firstWinning_None. }
  assert (Hnone : ∀ p, ¬ canWin boardState p →
            firstWinning boardState p (getEmptyCells boardState) = None).
  { intros p Hno. destruct (firstWinning boardState p _) as [c|] eqn:E; [|done].
    apply firstWinning_Some in E as [? ?]. exfalso. apply Hno. by exists c. }
  unfold getStrategicMove. split; [|split].
  - intros HO. destruct (Hfind O HO) as [c E]. rewrite E. exists c.
    pose proof (firstWinning_least _ _ _ E).
    apply firstWinning_Some in E as [Hc Hw].
    apply elem_of_getEmptyCells in Hc. done.
  - intros HO HX. rewrite (Hnone O HO).
    destruct (Hfind X HX) as [c E]. rewrite E. exists c.
    pose proof (firstWinning_least _ _ _ E).
    apply firstWinning_Some in E as [Hc Hw].
    apply elem_of_getEmptyCells in Hc. done.
  - intros HO HX H4. rewrite (Hnone O HO), (Hnone X HX).
    by rewrite decide_True.
Qed.

(** ** Further properties of the controller *)

(** X6: an applied move that makes no line for its player writes the board
    and leaves the scores and the winning cells alone.  If it fills the last
    empty cell the game is finished and the current player stays; otherwise
    the turn passes to the other player and the finished flag is not
    touched. *)
Theorem makeMove_no_win (view live : game) (cellIndex : nat) (p : player) :
  gameFinished view = false → board view !! cellIndex = Some Empty →
  isThinking view = false →
  checkWinner (<[cellIndex := Mark p]> (board view)) p = None →
  let newBoard := <[cellIndex := Mark p]> (board view) in
  let after := makeMove view cellIndex p live in
  board after = newBoard ∧
  scores after = scores live ∧
  winnerCells after = winnerCells live ∧
  (getEmptyCells newBoard = [] →
   gameFinished after = true ∧ currentPlayer after = currentPlayer live) ∧
  (getEmptyCells newBoard ≠ [] →
   gameFinished after = gameFinished live ∧ currentPlayer after = other p).
Proof.
  intros Hf Hc Ht Hno newBoard after. subst after newBoard.
  rewrite makeMove_accepted by done. simpl. rewrite Hno.
  split; [by case_decide|]. split; [by case_decide|]. split; [by case_decide|].
  split.
  - intros E. rewrite E. by simpl.
  - intros Hne. rewrite decide_False; [done|].
    by destruct (getEmptyCells _).
Qed.

Lemma makeMove_no_win_witness :
  let newBoard := <[4 := Mark X]> (board initialGame) in
  let after := makeMove initialGame 4 X initialGame in
  board after = newBoard ∧
  scores after = scores initialGame ∧
  winnerCells after = winnerCells initialGame ∧
  (getEmptyCells newBoard = [] →
   gameFinished after = true ∧ currentPlayer after = currentPlayer initialGame) ∧
  (getEmptyCells newBoard ≠ [] →
   gameFinished after = gameFinished initialGame ∧ currentPlayer after = other X).
Proof. apply (makeMove_no_win initialGame initialGame 4 X); reflexivity. Defined.

Lemma makeMove_scores view live i p :
  scores (makeMove view i p live) = scores live ∨
  (scores (makeMove view i p live) = addWin p (scores live) ∧
   gameFinished (makeMove view i p live) = true).
Proof.
  unfold makeMove. case_decide; [by left|].
  destruct (checkWinner _ _); [by right|]. case_decide; by left.
Qed.

(** X7: the scores change in two ways only.  [resetScore] sets both to 0; a
    click or the end of the opponent's thinking either leaves them alone or
    adds one win for one player and finishes the game; a new game, a change
    of mode or of opponent and the start of the opponent's turn leave them
    alone. *)
Theorem step_scores (e : event) (w : world) :
  let before := scores (live w) in
  let after := scores (live (step e w)) in
  match e with
  | ResetScore => after = {| scoreX := 0; scoreO := 0 |}
  | CellClick _ | ThinkingDone _ =>
      after = before ∨
      ∃ p, after = addWin p before ∧ gameFinished (live (step e w)) = true
  | NewGame | SwitchMode _ | SelectOpponent _ | OpponentTurn => after = before
  end.
Proof.
  destruct e; simpl; try done.
  - unfold handleCellClick. case_decide; [by left|].
    destruct (makeMove_scores (live w) (live w) cellIndex (currentPlayer (live w)))
      as [?|?]; [by left|right; by eexists].
  - case_decide; [|done]. unfold opponentMove. by case_decide.
  - destruct (pending w !! k) as [view|]; [|by left].
    unfold thinkingDone. cbv [mbind M_bind mret M_ret].
    destruct (getBestMove _ _ _) as [[[| |i]|err] g]; simpl; try by left.
    destruct (makeMove_scores view (live w) i O) as [?|?];
      [by left|right; by eexists].
  - unfold selectOpponent. by case_decide.
Qed.

(** X8: a click on a disabled cell button changes nothing; so does a click
    on a cell that is not empty; a click on an enabled, empty cell places
    the mark of the current player there. *)
Theorem click_and_disabled (cellIndex : nat) (s : game) :
  (cellDisabled s = true → handleCellClick cellIndex s = s) ∧
  (board s !! cellIndex ≠ Some Empty → handleCellClick cellIndex s = s) ∧
  (cellDisabled s = false → board s !! cellIndex = Some Empty →
   board (handleCellClick cellIndex s) =
     <[cellIndex := Mark (currentPlayer s)]> (board s)).
Proof.
  unfold cellDisabled, handleCellClick.
  destruct (decide (gameMode s = computer ∧ currentPlayer s = O)) as [Hopp|Hopp].
  { split; [done|]. split; [done|]. intros H. destruct Hopp as [Hm Hp].
    rewrite (bool_decide_eq_true_2 _ Hm), (bool_decide_eq_true_2 _ Hp) in H.
    simpl in H. by rewrite orb_true_r in H. }
  split; [|split].
  - intros H. apply makeMove_rejected.
    destruct (gameFinished s); [by left|].
    destruct (isThinking s); [by right; right|].
    simpl in H. rewrite orb_false_r in H.
    apply andb_true_iff in H as [?%bool_decide_eq_true ?%bool_decide_eq_true].
    tauto.
  - intros H. apply makeMove_rejected. tauto.
  - intros H Hc. apply orb_false_iff in H as [H Ht].
    apply orb_false_iff in H as [Hf _].
    by destruct (makeMove_outcome s s cellIndex (currentPlayer s) Hf Hc Ht).
Qed.

(** X9: for a draw from 0 up to, not including, 1 the thinking timer of each
    of the three opponents runs at least the minimum and at most the
    maximum of the opponent's thinking time.  (In exact arithmetic the
    maximum is not reached; the code computes in floating point, where a
    draw just below 1 can round up to it.) *)
Theorem thinkingDuration_range (id : opponentId) (r : Q) :
  (0 <= r)%Q → (r < 1)%Q →
  (inject_Z (fst (thinkingTime (opponents id))) <= thinkingDuration (opponents id) r)%Q ∧
  (thinkingDuration (opponents id) r <= inject_Z (snd (thinkingTime (opponents id))))%Q.
Proof.
  intros H0 H1. unfold Qle, Qlt in *.
  destruct r as [n d]; destruct id; unfold thinkingDuration; simpl in *; split; nia.
Qed.

Lemma thinkingDuration_range_witness :
  (inject_Z (fst (thinkingTime (opponents maya))) <= thinkingDuration (opponents maya) (1 # 2))%Q ∧
  (thinkingDuration (opponents maya) (1 # 2) <= inject_Z (snd (thinkingTime (opponents maya))))%Q.
Proof.
  apply (thinkingDuration_range maya (1 # 2)); vm_compute; [discriminate|reflexivity].
Defined.

(** X10: when the thinking timer started by a render fires, the board it
    writes is the board of that render with an O on one of its empty cells,
    whatever the board has become in the meantime; the opponent is no longer
    thinking. *)
Theorem thinkingDone_board_of_view (view s : game) (g : rng) :
  validSource g → gameFinished view = false → isThinking view = false →
  getEmptyCells (board view) ≠ [] →
  ∃ c s' g',
    thinkingDone view s g = (Normal s', g') ∧
    board view !! c = Some Empty ∧
    board s' = <[c := Mark O]> (board view) ∧
    isThinking s' = false.
Proof.
  intros Hg Hf Ht Hne.
  destruct (getBestMoveFor_in (opponents (selectedOpponent view)) (board view) g Hg Hne)
    as (c & g' & E & Hc).
  apply elem_of_getEmptyCells in Hc.
  exists c, (setIsThinking false (makeMove view c O s)), g'.
  unfold thinkingDone, getBestMove. cbv [mbind M_bind mret M_ret]. rewrite E.
  split; [done|]. split; [done|]. split; [|done]. simpl.
  by destruct (makeMove_outcome view s c O Hf Hc Ht).
Qed.

Lemma thinkingDone_board_of_view_witness :
  ∃ c s' g',
    thinkingDone (setBoard sampleBoard initialGame) initialGame halves = (Normal s', g') ∧
    board (setBoard sampleBoard initialGame) !! c = Some Empty ∧
    board s' = <[c := Mark O]> (board (setBoard sampleBoard initialGame)) ∧
    isThinking s' = false.
Proof.
  apply (thinkingDone_board_of_view (setBoard sampleBoard initialGame) initialGame halves).
  - intros n. split; vm_compute; [discriminate|reflexivity].
  - reflexivity.
  - reflexivity.
  - vm_compute. discriminate.
Defined.

(** ** Undisturbed play: the outcome agrees with the board *)

Lemma noLine_player boardState p : noLine boardState → checkWinner boardState p = None.
Proof. intros [? ?]. by destruct p. Qed.

Lemma makeMove_decided view live i p :
  board view = board live → gameFinished live = false →
  decided live → decided (makeMove view i p live).
Proof.
  intros Hb Hrun Hlive.
  destruct (makeMove_cases view live i p) as [->|(Hf & Hc & Ht & _)]; [done|].
  destruct Hlive as [Hopen _]. destruct (Hopen Hrun) as (Hcells & Hno & _).
  rewrite <- Hb in Hno.
  pose proof (checkWinner_fill_other (board view) i p (other p) Hc
                ltac:(by destruct p)) as Hother.
  rewrite (noLine_player _ (other p) Hno) in Hother.
  rewrite makeMove_accepted by done. simpl.
  destruct (checkWinner (<[i:=Mark p]> (board view)) p) as [combo|] eqn:Ewin.
  - split; [done|]. intros _. left. exists p. by split.
  - assert (noLine (<[i:=Mark p]> (board view))) as Hnew
      by (destruct p; by split).
    case_decide as Hlen.
    + split; [done|]. intros _. right.
      split; [done|]. split; [done|]. by apply nil_length_inv.
    + split; [|simpl; congruence]. simpl. intros _.
      split; [done|]. split; [done|]. intros E. by rewrite E in Hlen.
Qed.

Lemma initGame_decided s : decided (initGame s).
Proof.
  split; [|done]. intros _. by repeat split.
Qed.

Lemma step_undisturbed e w :
  calm e w → decided (live w) ∧ settledTimers w →
  decided (live (step e w)) ∧ settledTimers (step e w).
Proof.
  intros Hcalm [Hd Ht].
  destruct Ht as [Hnone|(view & Hp & Hb & Hvf & Hvt & Hlf & Hlt)].
  - (* no timer is pending *)
    destruct e; simpl in *.
    + split; [|by left]. unfold handleCellClick. case_decide; [done|].
      destruct (gameFinished (live w)) eqn:Hf.
      * rewrite makeMove_rejected; [done|by left].
      * by apply makeMove_decided.
    + case_decide as Hdue; [|split; [done|by left]].
      destruct Hdue as (_ & _ & Hf & Hth).
      unfold opponentMove.
      rewrite decide_False by (rewrite Hf, Hth; intros [?|?]; done).
      simpl. split; [done|]. right. exists (live w). rewrite Hnone. done.
    + rewrite Hnone. simpl. split; [done|by left].
    + split; [apply initGame_decided|by left].
    + split; [done|by left].
    + split; [apply initGame_decided|by left].
    + split; [|by left]. unfold selectOpponent.
      case_decide; [apply initGame_decided|done].
  - (* one timer is pending and the opponent is thinking *)
    destruct e; simpl in *; try (rewrite Hp in Hcalm; done); unfold onLive; simpl.
    + assert (handleCellClick cellIndex (live w) = live w) as ->.
      { unfold handleCellClick. case_decide; [done|].
        apply makeMove_rejected. by right; right. }
      split; [done|]. right. exists view. by repeat split.
    + rewrite decide_False by (intros (_ & _ & _ & E); congruence).
      split; [done|]. right. exists view. by repeat split.
    + rewrite Hp. destruct k as [|k]; simpl; [|split; [done|right; exists view; by repeat split]].
      unfold thinkingDone. cbv [mbind M_bind mret M_ret].
      destruct (getBestMove _ _ _) as [[[| |i]|err] g]; simpl.
      * split; [done|by left].
      * split; [done|by left].
      * split; [|by left].
        change (decided (makeMove view i O (live w))). by apply makeMove_decided.
      * split; [done|]. by left.
    + split; [done|]. right. exists view. by repeat split.
Qed.

Lemma undisturbed_invariant w :
  undisturbed w → decided (live w) ∧ settledTimers w.
Proof.
  induction 1 as [g|e w Hw IH Hcalm].
  - split; [|by left]. split; [|done]. intros _.
    by repeat split.
  - by apply step_undisturbed.
Qed.

Lemma decided_winner s p :
  gameFinished s = true → checkWinner (board s) p = Some (winnerCells s) →
  winner s = Some p.
Proof.
  intros Hf Hw. apply checkWinner_Some in Hw as (k & _ & Hl & _).
  apply line_cells in Hl as (a & b & c & E & Ha & _).
  unfold winner. by rewrite Hf, E, Ha.
Qed.

(** X11: in undisturbed play the state always agrees with the board.  While
    the game runs nobody has a line and a cell is empty.  A finished game
    is either won: the winning cells are the first line of the winner, who
    is the winner shown, and the other player has no line; or drawn: the
    board is full, nobody has a line and no winner is shown. *)
Theorem undisturbed_outcome (w : world) :
  undisturbed w →
  let s := live w in
  (gameFinished s = false →
     winner s = None ∧ noLine (board s) ∧ getEmptyCells (board s) ≠ []) ∧
  (gameFinished s = true →
     (∃ p, winner s = Some p ∧
           checkWinner (board s) p = Some (winnerCells s) ∧
           checkWinner (board s) (other p) = None) ∨
     (winner s = None ∧ winnerCells s = [] ∧ noLine (board s) ∧
      getEmptyCells (board s) = [])).
Proof.
  intros Hw s. destruct (undisturbed_invariant w Hw) as [[Hopen Hclosed] _].
  fold s in Hopen, Hclosed. split.
  - intros Hf. destruct (Hopen Hf) as (? & ? & ?).
    split; [|done]. unfold winner. by rewrite Hf.
  - intros Hf. destruct (Hclosed Hf) as [(p & Hp & Ho)|(Hc & Hno & Hfull)].
    + left. exists p. split; [by apply decided_winner|done].
    + right. split; [|done]. unfold winner. by rewrite Hf, Hc.
Qed.

Lemma undisturbed_outcome_witness :
  let s := live (step (CellClick 4) (initialWorld halves)) in
  (gameFinished s = false →
     winner s = None ∧ noLine (board s) ∧ getEmptyCells (board s) ≠ []) ∧
  (gameFinished s = true →
     (∃ p, winner s = Some p ∧
           checkWinner (board s) p = Some (winnerCells s) ∧
           checkWinner (board s) (other p) = None) ∨
     (winner s = None ∧ winnerCells s = [] ∧ noLine (board s) ∧
      getEmptyCells (board s) = [])).
Proof.
  apply (undisturbed_outcome (step (CellClick 4) (initialWorld halves))).
  apply undisturbed_step; [apply undisturbed_start|exact I].
Defined.

(** ** The status message *)

Lemma status_running s :
  gameFinished s = false →
  getStatusMessage s ≠ "You win!" ∧
  getStatusMessage s ≠ name (opponents (selectedOpponent s)) +:+ " wins!" ∧
  getStatusMessage s ≠ "It's a draw!".
Proof.
  intros Hf. unfold getStatusMessage. rewrite Hf.
  destruct (isThinking s), (selectedOpponent s), (decide (gameMode s = computer)),
    (currentPlayer s); repeat split; intros H; vm_compute in H; discriminate H.
Qed.

Lemma status_won s p :
  gameFinished s = true → checkWinner (board s) p = Some (winnerCells s) →
  getStatusMessage s =
  match p with
  | X => "You win!"
  | O => name (opponents (selectedOpponent s)) +:+ " wins!"
  end.
Proof.
  intros Hf Hw. apply checkWinner_Some in Hw as (k & _ & Hl & _).
  apply line_cells in Hl as (a & b & c & E & Ha & _).
  unfold getStatusMessage. rewrite Hf, E, Ha.
  destruct p; [by rewrite decide_True|]. rewrite !decide_False by done.
  by destruct (selectedOpponent s).
Qed.

(** X12: in undisturbed play the status message tells the outcome:
    it is ["You win!"] exactly when the game is finished and X has a line,
    the opponent's name followed by [" wins!"] exactly when the game is
    finished and O has a line (in either mode), and ["It's a draw!"]
    exactly when the game is finished and nobody has a line. *)
Theorem status_tells_outcome (w : world) :
  undisturbed w →
  let s := live w in
  (getStatusMessage s = "You win!" ↔
     gameFinished s = true ∧ is_Some (checkWinner (board s) X)) ∧
  (getStatusMessage s = name (opponents (selectedOpponent s)) +:+ " wins!" ↔
     gameFinished s = true ∧ is_Some (checkWinner (board s) O)) ∧
  (getStatusMessage s = "It's a draw!" ↔
     gameFinished s = true ∧ noLine (board s)).
Proof.
  intros Hw s. destruct (undisturbed_invariant w Hw) as [[Hopen Hclosed] _].
  fold s in Hopen, Hclosed.
  assert (name (opponents (selectedOpponent s)) +:+ " wins!" ≠ "You win!") as Hn1
    by (by destruct (selectedOpponent s)).
  assert (name (opponents (selectedOpponent s)) +:+ " wins!" ≠ "It's a draw!") as Hn2
    by (by destruct (selectedOpponent s)).
  destruct (gameFinished s) eqn:Hf.
  - destruct (Hclosed eq_refl) as [(p & Hp & Ho)|(Hc & [HX HO] & Hfull)].
    + rewrite (status_won s p Hf Hp). destruct p; simpl in Ho.
      * split; [|split].
        -- split; [intros _; split; [done|by eexists]|done].
        -- split; [intros E; by symmetry in E|intros [_ [? ?]]; congruence].
        -- split; [intros E; discriminate E|intros [_ [? ?]]; congruence].
      * split; [|split].
        -- split; [done|intros [_ [? ?]]; congruence].
        -- split; [intros _; split; [done|by eexists]|done].
        -- split; [done|intros [_ [? ?]]; congruence].
    + assert (getStatusMessage s = "It's a draw!") as ->
        by (unfold getStatusMessage; by rewrite Hf, Hc).
      split; [|split].
      * split; [intros E; discriminate E|intros [_ [? ?]]; congruence].
      * split; [intros E; by symmetry in E|intros [_ [? ?]]; congruence].
      * split; [intros _; by repeat split|done].
  - destruct (status_running s Hf) as (H1 & H2 & H3).
    split; [|split]; (split; [done|intros [? _]; done]).
Qed.

Lemma status_tells_outcome_witness :
  let s := live (step (CellClick 4) (initialWorld halves)) in
  (getStatusMessage s = "You win!" ↔
     gameFinished s = true ∧ is_Some (checkWinner (board s) X)) ∧
  (getStatusMessage s = name (opponents (selectedOpponent s)) +:+ " wins!" ↔
     gameFinished s = true ∧ is_Some (checkWinner (board s) O)) ∧
  (getStatusMessage s = "It's a draw!" ↔
     gameFinished s = true ∧ noLine (board s)).
Proof.
  apply (status_tells_outcome (step (CellClick 4) (initialWorld halves))).
  apply undisturbed_step; [apply undisturbed_start|exact I].
Defined.

(** ** A game against the expert *)

Lemma quiet_next g : quiet g → quiet (next g).
Proof. intros H n. apply H. Qed.

Lemma getBestMove_victor boardState g :
  quiet g → getEmptyCells boardState ≠ [] →
  getBestMove victor boardState g = (Normal (expertChoice boardState), next g).
Proof.
  intros Hq Hne. unfold getBestMove, getBestMoveFor.
  rewrite decide_False by (by destruct (getEmptyCells boardState)).
  rewrite bind_random.
  destruct (Qlt_le_dec _ _) as [Hlt|_].
  { exfalso. specialize (Hq (cursor g)). simpl in Hlt. unfold peek in Hlt.
    by apply Qle_not_lt in Hq. }
  simpl. unfold expertChoice.
  by destruct (bestLoop _ _ _ _).
Qed.

Lemma unbeaten_step n boardState x :
  unbeaten (S n) boardState = true → boardState !! x = Some Empty →
  let afterX := <[x := Mark X]> boardState in
  checkWinner afterX X = None ∧
  (getEmptyCells afterX = [] ∨
   ∃ c, expertChoice afterX = Index c ∧ afterX !! c = Some Empty ∧
        let afterO := <[c := Mark O]> afterX in
        (is_Some (checkWinner afterO O) ∨ getEmptyCells afterO = [] ∨
         (checkWinner afterO O = None ∧ getEmptyCells afterO ≠ [] ∧
          unbeaten n afterO = true))).
Proof.
  intros H Hx. cbn [unbeaten] in H. rewrite forallb_forall in H.
  specialize (H x). rewrite <- list_elem_of_In, elem_of_getEmptyCells in H.
  specialize (H Hx). simpl in *.
  destruct (checkWinner (<[x:=Mark X]> boardState) X); [done|]. split; [done|].
  case_decide as Hfull; [by left|]. right.
  destruct (expertChoice _) as [| |c]; try done. exists c. split; [done|].
  apply andb_true_iff in H as [Hc H]. apply bool_decide_eq_true in Hc.
  split; [done|].
  destruct (checkWinner (<[c:=Mark O]> _) O); [left; by eexists|].
  case_decide; [by right; left|]. by right; right.
Qed.

Lemma round_idle x s g :
  handleCellClick x s = s → ¬ opponentDue s →
  run (round x) {| live := s; pending := []; source := g |} =
  {| live := s; pending := []; source := g |}.
Proof.
  intros Hclick Hdue. unfold run, round. cbn [foldl step].
  unfold onLive. cbn [live pending source].
  rewrite Hclick. rewrite decide_False by done. reflexivity.
Qed.

Lemma round_betweenRounds x w : betweenRounds w → betweenRounds (run (round x) w).
Proof.
  intros Hw. pose proof Hw as (Hm & Hv & Ht & Hp & Hq & HX & Hstate).
  destruct w as [s pend g]. cbn [live pending source] in *. subst pend.
  destruct Hstate as [Hf|(Hf & Hcur & n & Hn)].
  { (* the game is over: nothing happens *)
    rewrite round_idle; [done| |].
    - unfold handleCellClick. case_decide; [done|]. apply makeMove_rejected. by left.
    - intros (_ & _ & E & _). congruence. }
  destruct (decide (board s !! x = Some Empty)) as [Hx|Hx]; cycle 1.
  { (* the cell is taken: nothing happens *)
    rewrite round_idle; [done| |].
    - unfold handleCellClick. case_decide; [done|]. apply makeMove_rejected. tauto.
    - intros (_ & E & _). congruence. }
  destruct n as [|n]; [done|].
  destruct (unbeaten_step n (board s) x Hn Hx) as [HnoX Hnext]. simpl in HnoX, Hnext.
  set (afterX := <[x:=Mark X]> (board s)) in *.
  unfold run, round. cbn [foldl step]. unfold onLive. cbn [live pending source].
  assert (handleCellClick x s =
          if decide (length (getEmptyCells afterX) = 0)
          then setGameFinished true (setBoard afterX s)
          else setCurrentPlayer O (setBoard afterX s)) as ->.
  { unfold handleCellClick. rewrite decide_False by (intros [_ E]; congruence).
    rewrite makeMove_accepted by done. simpl. rewrite Hcur. fold afterX.
    by rewrite HnoX. }
  destruct (decide (length (getEmptyCells afterX) = 0)) as [Hfull|Hfull].
  { (* X filled the board *)
    rewrite (decide_False (P := opponentDue _))
      by (intros (_ & _ & E & _); done).
    simpl. repeat split; try done. by left. }
  destruct Hnext as [E|(c & Hc & Hempty & Hnext)];
    [rewrite E in Hfull; done|].
  set (s1 := setCurrentPlayer O (setBoard afterX s)).
  rewrite (decide_True (P := opponentDue s1)) by (by repeat split).
  unfold opponentMove. cbn [live pending source].
  rewrite (decide_False (P := gameFinished s1 = true ∨ isThinking s1 = true))
    by (subst s1; simpl; rewrite Hf, Ht; intros [?|?]; done).
  cbn [random app live pending source lookup list_lookup].
  unfold thinkingDone. cbv [mbind M_bind mret M_ret].
  replace (selectedOpponent s1) with victor by done.
  rewrite getBestMove_victor;
    [|by apply quiet_next|simpl; fold afterX; intros E; by rewrite E in Hfull].
  replace (board s1) with afterX by done. rewrite Hc.
  rewrite makeMove_accepted by done.
  cbn [live pending source delete list_delete]. simpl board. fold afterX.
  set (afterO := <[c:=Mark O]> afterX) in *.
  assert (checkWinner afterO X = None) as HnoX'.
  { unfold afterO. by rewrite (checkWinner_fill_other afterX c O X Hempty). }
  destruct (checkWinner afterO O) as [combo|] eqn:EO.
  { simpl. repeat split; try done; try (by do 2 apply quiet_next). by left. }
  destruct Hnext as [[? ?]|[Hfull'|(_ & Hne & Hrest)]]; [done| |].
  - rewrite Hfull'. simpl.
    repeat split; try done; try (by do 2 apply quiet_next). by left.
  - rewrite decide_False by (by destruct (getEmptyCells afterO)).
    simpl. repeat split; try done; try (by do 2 apply quiet_next).
    right. repeat split; try done. by exists n.
Qed.

Lemma run_app es1 es2 w : run (es1 ++ es2) w = run es2 (run es1 w).
Proof. unfold run. apply foldl_app. Qed.

Lemma rounds_betweenRounds xs w :
  betweenRounds w → betweenRounds (run (flat_map round xs) w).
Proof.
  revert w. induction xs as [|x xs IH]; intros w Hw; [done|].
  change (flat_map round (x :: xs)) with (round x ++ flat_map round xs).
  rewrite run_app. apply IH. by apply round_betweenRounds.
Qed.

(** X13: against Victor, X cannot win while the error injection does not
    fire.  From the first render, after choosing to play the computer with
    Victor as the opponent, whatever cells X clicks round after round (each
    click followed by the opponent's turn and the end of its thinking), X
    never has a line on the board. *)
Theorem victor_unbeaten (g : rng) (xs : list nat) :
  quiet g →
  let w := run ([SwitchMode computer; SelectOpponent victor] ++ flat_map round xs)
               (initialWorld g) in
  checkWinner (board (live w)) X = None.
Proof.
  intros Hq w. subst w. rewrite run_app.
  apply (rounds_betweenRounds xs). simpl.
  repeat split; try done. right. repeat split; try done.
  exists 5. vm_compute. reflexivity.
Qed.

Lemma victor_unbeaten_witness :
  let w := run ([SwitchMode computer; SelectOpponent victor]
                  ++ flat_map round [4; 8; 2; 3; 1])
               (initialWorld halves) in
  checkWinner (board (live w)) X = None.
Proof.
  apply (victor_unbeaten halves [4; 8; 2; 3; 1]).
  intros n. vm_compute. discriminate.
Defined.

(** ** The earlier component: status message and balance *)

Lemma Basic_makeMove_accepted view live i p :
  Basic.gameFinished view = false → Basic.board view !! i = Some Empty →
  Basic.aiThinking view = false →
  let newBoard := <[i := Mark p]> (Basic.board view) in
  Basic.makeMove view i p live =
  match checkWinner newBoard p with
  | Some winCombo => Basic.handleWin p winCombo (Basic.setBoard newBoard live)
  | None =>
      if decide (length (getEmptyCells newBoard) = 0)
      then Basic.handleDraw (Basic.setBoard newBoard live)
      else Basic.setCurrentPlayer (other p) (Basic.setBoard newBoard live)
  end.
Proof.
  intros Hf Hc Ht. unfold Basic.makeMove. rewrite decide_False; [done|].
  rewrite Hf, Hc, Ht. intros [?|[?|?]]; done.
Qed.

(** X14: in the earlier component, when the click of the current player
    completes a line, the game is finished with that player's line on the
    board, and the status message names the other player as the one who
    wins: the current player is not switched after a win, and the message
    prints the opposite of the current player. *)
Theorem basic_status_after_win (s : Basic.game) (cellIndex : nat)
    (winCombo : list nat) :
  Basic.gameFinished s = false → Basic.aiThinking s = false →
  ¬ (Basic.gameMode s = Basic.ai ∧ Basic.currentPlayer s = O) →
  Basic.board s !! cellIndex = Some Empty →
  checkWinner (<[cellIndex := Mark (Basic.currentPlayer s)]> (Basic.board s))
              (Basic.currentPlayer s) = Some winCombo →
  let after := BasicGame.handleCellClick cellIndex s in
  Basic.gameFinished after = true ∧
  line (Basic.board after) (Basic.currentPlayer s) (Basic.winnerCells after) ∧
  BasicGame.getStatusMessage after =
    BasicGame.symbol (other (Basic.currentPlayer s)) +:+ " Wins! ğŸ‰".
Proof.
  intros Hf Ht Hmode Hc Hwin after. subst after.
  unfold BasicGame.handleCellClick. rewrite decide_False by done.
  rewrite Basic_makeMove_accepted by done. simpl. rewrite Hwin. simpl.
  pose proof Hwin as Hline.
  apply checkWinner_Some in Hline as (k & _ & Hl & _).
  split; [done|]. split; [done|].
  apply line_cells in Hl as (a & b & c & -> & _).
  unfold BasicGame.getStatusMessage. simpl.
  by destruct (Basic.currentPlayer s).
Qed.

Lemma basic_status_after_win_witness :
  let s := Basic.setBoard sampleBoard Basic.initialGame in
  let after := BasicGame.handleCellClick 2 s in
  Basic.gameFinished after = true ∧
  line (Basic.board after) (Basic.currentPlayer s) (Basic.winnerCells after) ∧
  BasicGame.getStatusMessage after =
    BasicGame.symbol (other (Basic.currentPlayer s)) +:+ " Wins! ğŸ‰".
Proof.
  intros s.
  apply (basic_status_after_win s 2 [0; 1; 2]); try reflexivity.
  intros [H _]. discriminate H.
Defined.

Lemma Basic_makeMove_inTurn view live i p :
  dueOn (Basic.board view) p → BasicGame.inTurn live →
  BasicGame.inTurn (Basic.makeMove view i p live).
Proof.
  intros Hdue Hlive.
  destruct (Basic_makeMove_cases view live i p) as [->|(Hf & Hc & Ht & _)]; [done|].
  destruct (dueOn_fill _ i p Hc Hdue) as [Hbal Hnext].
  rewrite Basic_makeMove_accepted by done. simpl.
  destruct (checkWinner _ _); [by split|].
  case_decide; split; try done.
Qed.

Lemma BasicGame_initGame_inTurn s : BasicGame.inTurn (BasicGame.initGame s).
Proof. split; [|intros _]; apply emptyBoard_balanced. Qed.

Lemma BasicGame_step_consistent e w :
  BasicGame.consistent w → BasicGame.consistent (BasicGame.step e w).
Proof.
  intros (Hlive & Hsched & Hthink). destruct e; simpl.
  - split; [|done]. simpl. unfold BasicGame.handleCellClick. case_decide; [done|].
    destruct (Basic_makeMove_cases (BasicGame.live w) (BasicGame.live w) cellIndex
                (Basic.currentPlayer (BasicGame.live w))) as [->|(Hf & _)]; [done|].
    apply Basic_makeMove_inTurn; [|done]. by apply Hlive.
  - case_decide as Hdue; [|done]. destruct Hdue as (_ & Hp & Hf & _).
    split; [done|]. split; [|done]. simpl. apply Forall_app. split; [done|].
    apply Forall_singleton. destruct Hlive as [_ Hturn].
    specialize (Hturn Hf). by rewrite Hp in Hturn.
  - destruct (BasicGame.scheduled w !! k) as [view|] eqn:Ek; [|done].
    assert (dueOn (Basic.board view) O) as Hview.
    { rewrite Forall_forall in Hsched. apply Hsched.
      by eapply list_elem_of_lookup_2. }
    unfold BasicGame.aiMove. simpl.
    case_decide; simpl.
    + split; [done|]. split; [by apply Forall_delete|done].
    + split; [done|]. split; [by apply Forall_delete|].
      apply Forall_app. split; [done|]. by apply Forall_singleton.
  - destruct (BasicGame.thinking w !! k) as [view|] eqn:Ek; [|done].
    assert (dueOn (Basic.board view) O) as Hview.
    { rewrite Forall_forall in Hthink. apply Hthink.
      by eapply list_elem_of_lookup_2. }
    unfold BasicGame.thinkingDone. cbv [mbind M_bind mret M_ret].
    destruct (Basic.getBestMove _ _) as [[[| |i]|err] g]; simpl;
      (split; [|split; [done|by apply Forall_delete]]); try done.
    change (BasicGame.inTurn (Basic.makeMove view i O (BasicGame.live w))).
    by apply Basic_makeMove_inTurn.
  - split; [apply BasicGame_initGame_inTurn|done].
  - done.
  - split; [apply BasicGame_initGame_inTurn|done].
Qed.

Lemma BasicGame_run_consistent es w :
  BasicGame.consistent w → BasicGame.consistent (BasicGame.run es w).
Proof.
  revert w. induction es as [|e es IH]; intros w Hw; [done|].
  apply IH. by apply BasicGame_step_consistent.
Qed.

(** X15: the earlier component keeps the balance of the board too: in every
    state reachable from its first render (clicks, runs of the effect, calls
    of [aiMove] and ends of thinking in any order, new game, score reset,
    change of mode), [count(X) - count(O)] is 0 or 1. *)
Theorem basic_reachable_balanced (w : BasicGame.world) :
  BasicGame.reachable w → balancedBoard (Basic.board (BasicGame.live w)).
Proof.
  intros (g & es & ->).
  apply (BasicGame_run_consistent es (BasicGame.initialWorld g)).
  split; [|by split].
  split; [|intros _]; apply emptyBoard_balanced.
Qed.

Lemma basic_reachable_balanced_witness :
  balancedBoard
    (Basic.board
       (BasicGame.live
          (BasicGame.run
             [BasicGame.SwitchMode Basic.ai; BasicGame.CellClick 4;
              BasicGame.EffectRuns; BasicGame.EffectRuns; BasicGame.AiMove 0;
              BasicGame.ThinkingDone 0; BasicGame.AiMove 0;
              BasicGame.ThinkingDone 0]
             (BasicGame.initialWorld halves)))).
Proof.
  apply basic_reachable_balanced.
  exists halves, [BasicGame.SwitchMode Basic.ai; BasicGame.CellClick 4;
                  BasicGame.EffectRuns; BasicGame.EffectRuns; BasicGame.AiMove 0;
                  BasicGame.ThinkingDone 0; BasicGame.AiMove 0;
                  BasicGame.ThinkingDone 0].
  reflexivity.
Defined.

(** X16: in every reachable state of a game that is not finished the counts
    tell whose turn it is: X is the current player exactly when the board
    holds as many X as O, and O exactly when it holds one X more. *)
Theorem reachable_turn (w : world) :
  reachable w → gameFinished (live w) = false →
  (currentPlayer (live w) = X ↔
     countOf X (board (live w)) = countOf O (board (live w))) ∧
  (currentPlayer (live w) = O ↔
     countOf X (board (live w)) = countOf O (board (live w)) + 1).
Proof.
  intros (g & es & ->) Hf.
  destruct (run_consistent es (initialWorld g) (initialWorld_consistent g))
    as [[_ Hturn] _].
  specialize (Hturn Hf). unfold dueOn in Hturn.
  destruct (currentPlayer _); split; split; try done; intros; lia.
Qed.

Lemma reachable_turn_witness :
  let w := run [CellClick 4] (initialWorld halves) in
  (currentPlayer (live w) = X ↔
     countOf X (board (live w)) = countOf O (board (live w))) ∧
  (currentPlayer (live w) = O ↔
     countOf X (board (live w)) = countOf O (board (live w)) + 1).
Proof.
  intros w. apply (reachable_turn w); [|reflexivity].
  exists halves, [CellClick 4]. reflexivity.
Defined.
